(** * sync_clip: the client's channel, its local storage, and the
      server-side contracts of the fan-out core

    Part I embeds the program: the WebSocket provider of the web client
    ([web-client/src/contexts/WebSocketContext.tsx]), the auth provider and
    the key storage of the encryption service, the Base64 helpers of the
    encryption service, and the cleanup trigger of the database schema.
    The Python back end is not part of the sources at hand; its three
    contracts (deduplicator, registry, dispatcher) are modelled from the
    specification and marked as such.

    Part II states and proves the properties. *)

From stdpp Require Import gmap strings list fin_maps.
From Stdlib Require Import ZArith NArith Permutation Sorted.
From Stdlib.Strings Require Import Byte.

Local Open Scope N_scope.

(* ===================================================================== *)
(** * Part I -- the embedding                                             *)
(* ===================================================================== *)

(** ** JavaScript values as the handlers see them *)

(** The result of [JSON.parse], extended with [undefined], which property
    access produces. Numeric literals are kept as the integer they denote;
    no handler computes with them. *)
#[local] Unset Elimination Schemes.
Inductive JsVal : Type :=
| JUndefined
| JNull
| JBool (b : bool)
| JNum (n : Z)
| JStr (s : string)
| JArr (items : list JsVal)
| JObj (fields : list (string * JsVal)).
#[local] Set Elimination Schemes.

(** [assoc_last k fs]: the value an object built from the members [fs]
    holds under [k]; a later member overrides an earlier one. *)
Fixpoint assoc_last (k : string) (fs : list (string * JsVal)) : option JsVal :=
  match fs with
  | [] => None
  | (k', v) :: rest =>
      match assoc_last k rest with
      | Some v' => Some v'
      | None => if String.eqb k k' then Some v else None
      end
  end.

(** [v.k]. [None] is the TypeError thrown on [null] and [undefined]. *)
Definition get_prop (v : JsVal) (k : string) : option JsVal :=
  match v with
  | JUndefined | JNull => None
  | JObj fs => Some (default JUndefined (assoc_last k fs))
  | _ => Some JUndefined
  end.

(** [v === s] for a string literal [s]. *)
Definition is_str (v : JsVal) (s : string) : bool :=
  match v with
  | JStr s' => String.eqb s' s
  | _ => false
  end.

(** The object [JSON.stringify] writes for an object literal: members whose
    value is [undefined] are left out. A frame is represented by the value
    its text denotes. *)
Definition stringify_obj (fs : list (string * JsVal)) : JsVal :=
  JObj (List.filter (fun kv => match kv.2 with JUndefined => false | _ => true end) fs).

(** [!s] is false exactly for a non-empty string. *)
Definition truthy_str (s : option string) : bool :=
  match s with
  | Some (String _ _) => true
  | _ => false
  end.

(** ** The WebSocket provider *)

Module Client.

(** The causes a close can have on the wire. The handler installed by
    [connect] is [ws.onclose = () => {...}]: it takes no argument, so the
    event the browser passes is dropped. *)
Inductive CloseCause : Type :=
| NormalClosure
| AuthenticationFailure
| HeartbeatTimeout
| ServerShutdown.

(** What one render's [connect] closes over: the values [useAuth()]
    returned to that render. *)
Record Closure : Type := mkClosure {
  isAuthenticated : bool;
  deviceId : option string
}.

Inductive ReadyState : Type := Connecting | Open.

(** The provider's state and refs, and the part of the browser they act on. *)
Record World : Type := mkWorld {
  isConnected : bool;                          (* useState(false) *)
  lastUpdate : option JsVal;                   (* useState(null) *)
  wsRef : option nat;                          (* useRef(null) *)
  reconnectTimeoutRef : option nat;            (* useRef() *)
  reconnectAttempts : N;                       (* useRef(0) *)
  localStorage : gmap string string;
  sockets : gmap nat (Closure * ReadyState);   (* sockets whose close event is still to come *)
  timers : gmap nat (N * Closure);             (* pending setTimeout: delay in ms, and the connect to call *)
  sent : list (nat * JsVal);                   (* frames handed to ws.send, oldest first *)
  clipboard : option string;                   (* navigator.clipboard *)
  nextHandle : nat                             (* source of socket and timer handles *)
}.

Definition set_isConnected (b : bool) (w : World) : World :=
  mkWorld b (lastUpdate w) (wsRef w) (reconnectTimeoutRef w) (reconnectAttempts w)
          (localStorage w) (sockets w) (timers w) (sent w) (clipboard w) (nextHandle w).

Definition set_lastUpdate (u : option JsVal) (w : World) : World :=
  mkWorld (isConnected w) u (wsRef w) (reconnectTimeoutRef w) (reconnectAttempts w)
          (localStorage w) (sockets w) (timers w) (sent w) (clipboard w) (nextHandle w).

Definition set_wsRef (r : option nat) (w : World) : World :=
  mkWorld (isConnected w) (lastUpdate w) r (reconnectTimeoutRef w) (reconnectAttempts w)
          (localStorage w) (sockets w) (timers w) (sent w) (clipboard w) (nextHandle w).

Definition set_reconnectAttempts (n : N) (w : World) : World :=
  mkWorld (isConnected w) (lastUpdate w) (wsRef w) (reconnectTimeoutRef w) n
          (localStorage w) (sockets w) (timers w) (sent w) (clipboard w) (nextHandle w).

Definition set_localStorage (ls : gmap string string) (w : World) : World :=
  mkWorld (isConnected w) (lastUpdate w) (wsRef w) (reconnectTimeoutRef w) (reconnectAttempts w)
          ls (sockets w) (timers w) (sent w) (clipboard w) (nextHandle w).

Definition set_sockets (s : gmap nat (Closure * ReadyState)) (w : World) : World :=
  mkWorld (isConnected w) (lastUpdate w) (wsRef w) (reconnectTimeoutRef w) (reconnectAttempts w)
          (localStorage w) s (timers w) (sent w) (clipboard w) (nextHandle w).

Definition set_timers (t : gmap nat (N * Closure)) (w : World) : World :=
  mkWorld (isConnected w) (lastUpdate w) (wsRef w) (reconnectTimeoutRef w) (reconnectAttempts w)
          (localStorage w) (sockets w) t (sent w) (clipboard w) (nextHandle w).

Definition set_clipboard (c : option string) (w : World) : World :=
  mkWorld (isConnected w) (lastUpdate w) (wsRef w) (reconnectTimeoutRef w) (reconnectAttempts w)
          (localStorage w) (sockets w) (timers w) (sent w) c (nextHandle w).

(** [ws.send(frame)] *)
Definition ws_send (ws : nat) (frame : JsVal) (w : World) : World :=
  mkWorld (isConnected w) (lastUpdate w) (wsRef w) (reconnectTimeoutRef w) (reconnectAttempts w)
          (localStorage w) (sockets w) (timers w) (sent w ++ [(ws, frame)]) (clipboard w)
          (nextHandle w).

(** [new WebSocket(getWebSocketURL(token))]: a socket in the connecting
    state, with the handlers of [env] installed on it. *)
Definition new_WebSocket (env : Closure) (w : World) : nat * World :=
  let ws := nextHandle w in
  (ws,
   mkWorld (isConnected w) (lastUpdate w) (wsRef w) (reconnectTimeoutRef w) (reconnectAttempts w)
           (localStorage w) (<[ws := (env, Connecting)]> (sockets w)) (timers w) (sent w)
           (clipboard w) (S ws)).

(** [reconnectTimeoutRef.current = setTimeout(() => { reconnectAttempts.current++; connect(); }, delay)] *)
Definition setTimeout_reconnect (delay : N) (env : Closure) (w : World) : World :=
  let h := nextHandle w in
  mkWorld (isConnected w) (lastUpdate w) (wsRef w) (Some h) (reconnectAttempts w)
          (localStorage w) (sockets w) (<[h := (delay, env)]> (timers w)) (sent w)
          (clipboard w) (S h).

(** The delay [Math.min(1000 * Math.pow(2, n), 30000)] of [ws.onclose]. *)
Definition backoff_delay (n : N) : N := N.min (1000 * 2 ^ n) 30000.

(** [connect]. The URL built by [getWebSocketURL] is a [ws:] URL, on which
    the constructor does not throw. *)
Definition connect (env : Closure) (w : World) : World :=
  if negb (isAuthenticated env) || negb (truthy_str (deviceId env)) then w
  else
    let token := localStorage w !! "access_token"%string in
    if negb (truthy_str token) then w
    else
      let '(ws, w1) := new_WebSocket env w in
      set_wsRef (Some ws) w1.

(** [ws.onopen] *)
Definition onopen (w : World) : World :=
  set_reconnectAttempts 0 (set_isConnected true w).

Section Handlers.

(** [EncryptionService.decrypt(encrypted_content, iv)] under the stored
    key; [None] when it rejects. AES-GCM itself is the platform's, and the
    page is taken to hold the permission [clipboard.writeText] needs. *)
Variable decrypt : JsVal -> JsVal -> option string.

(** The [clipboard_update] branch of [ws.onmessage]. Its two awaits are
    run to completion here; after them the handler writes the system
    clipboard and nothing the provider holds. *)
Definition on_clipboard_update (message : JsVal) (w : World) : World :=
  match get_prop message "data" with
  | None => w
  | Some data =>
      let w1 := set_lastUpdate (Some data) w in
      match get_prop data "encrypted_content", get_prop data "iv" with
      | Some ec, Some iv =>
          match decrypt ec iv with
          | Some plain => set_clipboard (Some plain) w1
          | None => w1
          end
      | _, _ => w1
      end
  end.

(** [ws.onmessage]. [parsed] is the result of [JSON.parse(event.data)],
    [None] when it throws; every exception is caught and logged. *)
Definition onmessage (ws : nat) (parsed : option JsVal) (w : World) : World :=
  match parsed with
  | None => w
  | Some message =>
      match get_prop message "type" with
      | None => w
      | Some ty =>
          if is_str ty "clipboard_update" then on_clipboard_update message w
          else if is_str ty "ping" then
            match get_prop message "timestamp" with
            | Some ts =>
                ws_send ws (stringify_obj [("type"%string, JStr "pong");
                                           ("timestamp"%string, ts)]) w
            | None => w
            end
          else w
      end
  end.

(** [ws.onclose] *)
Definition onclose (env : Closure) (w : World) : World :=
  let w1 := set_wsRef None (set_isConnected false w) in
  if isAuthenticated env && (reconnectAttempts w1 <? 10) then
    setTimeout_reconnect (backoff_delay (reconnectAttempts w1)) env w1
  else w1.

(** The callback handed to [setTimeout]. *)
Definition reconnect_callback (env : Closure) (w : World) : World :=
  connect env (set_reconnectAttempts (reconnectAttempts w + 1) w).

(** What the browser can do to the provider. *)
Inductive Event : Type :=
| EvOpen (ws : nat)
| EvMessage (ws : nat) (parsed : option JsVal)
| EvError (ws : nat)
| EvClose (ws : nat) (cause : CloseCause)
| EvTimer (h : nat).

(** One event dispatched by the browser; [None] when the event cannot
    occur in [w]. *)
Definition step (e : Event) (w : World) : option World :=
  match e with
  | EvOpen ws =>
      match sockets w !! ws with
      | Some (env, Connecting) =>
          Some (onopen (set_sockets (<[ws := (env, Open)]> (sockets w)) w))
      | _ => None
      end
  | EvMessage ws parsed =>
      match sockets w !! ws with
      | Some (_, Open) => Some (onmessage ws parsed w)
      | _ => None
      end
  | EvError ws =>
      match sockets w !! ws with
      | Some _ => Some w
      | None => None
      end
  | EvClose ws _ =>
      match sockets w !! ws with
      | Some (env, _) => Some (onclose env (set_sockets (delete ws (sockets w)) w))
      | None => None
      end
  | EvTimer h =>
      match timers w !! h with
      | Some (_, env) => Some (reconnect_callback env (set_timers (delete h (timers w)) w))
      | None => None
      end
  end.

(** A connection attempt that fails: the socket the provider holds closes,
    and the timer that close has set fires. *)
Definition fail_once (cause : CloseCause) (w : World) : option World :=
  ws ← wsRef w;
  w1 ← step (EvClose ws cause) w;
  h ← reconnectTimeoutRef w1;
  step (EvTimer h) w1.

Fixpoint fail_times (k : nat) (cause : CloseCause) (w : World) : option World :=
  match k with
  | O => Some w
  | S k' => w1 ← fail_once cause w; fail_times k' cause w1
  end.

(** The delays of the timers set while the socket held by the provider
    fails [k] times in a row. *)
Fixpoint fail_delays (k : nat) (cause : CloseCause) (w : World) : list N :=
  match k with
  | O => []
  | S k' =>
      match wsRef w with
      | None => []
      | Some ws =>
          match step (EvClose ws cause) w with
          | None => []
          | Some w1 =>
              match reconnectTimeoutRef w1 with
              | None => []
              | Some h =>
                  match timers w1 !! h, step (EvTimer h) w1 with
                  | Some (d, _), Some w2 => d :: fail_delays k' cause w2
                  | _, _ => []
                  end
              end
          end
      end
  end.

End Handlers.

(** The provider as first rendered. *)
Definition initial (ls : gmap string string) : World :=
  mkWorld false None None None 0 ls ∅ ∅ [] None 0.

(** No socket is left and no timer is pending: nothing can reach the
    provider's handlers any more. *)
Definition offline (w : World) : Prop :=
  isConnected w = false ∧ wsRef w = None ∧ sockets w = ∅ ∧ timers w = ∅.

End Client.

(** The body of the provider's effect, run when [isAuthenticated] or
    [deviceId] change, and its cleanup. [ws.close()] starts the closing
    handshake: the socket stays until its close event is dispatched. *)
Definition effect_mount (env : Client.Closure) (w : Client.World) : Client.World :=
  if Client.isAuthenticated env && truthy_str (Client.deviceId env)
  then Client.connect env w else w.

Definition effect_cleanup (w : Client.World) : Client.World :=
  match Client.reconnectTimeoutRef w with
  | Some h => Client.set_timers (delete h (Client.timers w)) w
  | None => w
  end.

(** ** The auth provider and the key storage of the encryption service *)

Module Auth.

Record State : Type := mkState {
  isAuthenticated : bool;
  user : option JsVal;
  deviceId : option string;
  loading : bool;
  localStorage : gmap string string
}.

(** [logout]. The call of [EncryptionService.clearKey] is commented out in
    the source. *)
Definition logout (st : State) : State :=
  let ls := delete "access_token"%string (localStorage st) in
  let ls := delete "user_id"%string ls in
  let ls := delete "device_id"%string ls in
  mkState false None None (loading st) ls.

(** [EncryptionService.clearKey] *)
Definition clearKey (ls : gmap string string) : gmap string string :=
  delete "encryption_key"%string ls.

Section Keys.

(** A [CryptoKey], the JWK text [JSON.stringify(exportKey('jwk', key))]
    writes for it, and [importKey('jwk', JSON.parse(text))], which is
    [None] when either step throws. *)
Variable Key : Type.
Variable exportKey : Key -> string.
Variable importKey : string -> option Key.

(** [EncryptionService.generateKey], with the key the platform drew. *)
Definition generateKey (fresh : Key) (ls : gmap string string) : Key * gmap string string :=
  (fresh, <["encryption_key"%string := exportKey fresh]> ls).

(** [EncryptionService.getKey]; [None] when it rejects. *)
Definition getKey (fresh : Key) (ls : gmap string string) : option Key * gmap string string :=
  let storedKey := ls !! "encryption_key"%string in
  if truthy_str storedKey then
    (storedKey ≫= importKey, ls)
  else
    let '(k, ls') := generateKey fresh ls in (Some k, ls').

(** What [registerDevice] and [login] do to the state when every request
    succeeds: [token] and [uid] are the fields of the login response,
    [dtoken] and [did] those of the device registration, [me] the answer of
    [getCurrentUser]. A key that fails to import makes [login] throw after
    the storage has been written. *)
Definition registerDevice (dtoken did : string) (st : State) : State :=
  let ls := <["access_token"%string := dtoken]> (localStorage st) in
  let ls := <["device_id"%string := did]> ls in
  mkState (isAuthenticated st) (user st) (Some did) (loading st) ls.

Definition login (token uid dtoken did : string) (me : JsVal) (fresh : Key)
    (st : State) : State * option Key :=
  let ls := <["access_token"%string := token]> (localStorage st) in
  let ls := <["user_id"%string := uid]> ls in
  let st1 := registerDevice dtoken did
               (mkState (isAuthenticated st) (user st) (deviceId st) (loading st) ls) in
  let '(k, ls') := getKey fresh (localStorage st1) in
  match k with
  | Some _ => (mkState true (Some me) (deviceId st1) (loading st1) ls', k)
  | None => (mkState (isAuthenticated st1) (user st1) (deviceId st1) (loading st1) ls', None)
  end.

End Keys.

End Auth.

(** ** The Base64 helpers of the encryption service *)

Module Base64.

(** A JavaScript string is its sequence of UTF-16 code units; an
    [ArrayBuffer] is a list of bytes. *)
Definition JsString : Type := list N.

Definition of_ascii (s : string) : JsString :=
  List.map Ascii.N_of_ascii (String.list_ascii_of_string s).

(** [btoa] and [atob] are the browser's: Base64 of RFC 4648 with padding,
    and the "forgiving-base64 decode" of the WHATWG Infra standard. *)
Definition alphabet : list N :=
  of_ascii "ABCDEFGHIJKLMNOPQRSTUVWXYZabcdefghijklmnopqrstuvwxyz0123456789+/".

Definition pad : N := 61.

Definition b64_char (sextet : N) : N := nth (N.to_nat sextet) alphabet 65.

Definition b64_val (c : N) : option N :=
  if (65 <=? c) && (c <=? 90) then Some (c - 65)
  else if (97 <=? c) && (c <=? 122) then Some (c - 71)
  else if (48 <=? c) && (c <=? 57) then Some (c + 4)
  else if c =? 43 then Some 62
  else if c =? 47 then Some 63
  else None.

Fixpoint sextets (bs : list N) : list N :=
  match bs with
  | [] => []
  | [a] => [a / 4; (a mod 4) * 16]
  | [a; b] => [a / 4; (a mod 4) * 16 + b / 16; (b mod 16) * 4]
  | a :: b :: c :: rest =>
      a / 4 :: (a mod 4) * 16 + b / 16 :: (b mod 16) * 4 + c / 64 :: c mod 64 :: sextets rest
  end.

Definition padding (len : nat) : list N :=
  match (len mod 3)%nat with
  | 1%nat => [pad; pad]
  | 2%nat => [pad]
  | _ => []
  end.

(** [btoa(s)]; [None] is the InvalidCharacterError for a code unit above 255. *)
Definition btoa (s : JsString) : option JsString :=
  if forallb (fun c => c <=? 255) s
  then Some (List.map b64_char (sextets s) ++ padding (length s))
  else None.

Definition is_ascii_whitespace (c : N) : bool :=
  (c =? 9) || (c =? 10) || (c =? 12) || (c =? 13) || (c =? 32).

(** Drop one or two trailing [=]. *)
Definition strip_padding (s : JsString) : JsString :=
  match rev s with
  | e1 :: e2 :: r =>
      if e1 =? pad then (if e2 =? pad then rev r else rev (e2 :: r)) else s
  | [e1] => if e1 =? pad then [] else s
  | [] => s
  end.

(** The bytes of a run of sextets; a final group of two or three sextets
    gives one or two bytes, its spare low bits being dropped. *)
Fixpoint bytes_of_sextets (l : list N) : list N :=
  match l with
  | a :: b :: c :: d :: rest =>
      a * 4 + b / 16 :: (b mod 16) * 16 + c / 4 :: (c mod 4) * 64 + d :: bytes_of_sextets rest
  | [a; b; c] => [a * 4 + b / 16; (b mod 16) * 16 + c / 4]
  | [a; b] => [a * 4 + b / 16]
  | _ => []
  end.

(** [atob(s)]; [None] is the InvalidCharacterError. *)
Definition atob (s : JsString) : option JsString :=
  let d := List.filter (fun c => negb (is_ascii_whitespace c)) s in
  let d := if (length d mod 4 =? 0)%nat then strip_padding d else d in
  if (length d mod 4 =? 1)%nat then None
  else bytes_of_sextets <$> mapM b64_val d.

(** [String.fromCharCode(b)] for an element of a [Uint8Array], and the
    store [bytes[i] = c], which keeps [c] modulo 256. *)
Definition fromCharCode (b : Byte.byte) : N := Byte.to_N b.

Definition to_uint8 (c : N) : Byte.byte := default Byte.x00 (Byte.of_N (c mod 256)).

(** [arrayBufferToBase64]: the loop appends one code unit per byte. *)
Definition arrayBufferToBase64 (buffer : list Byte.byte) : option JsString :=
  let binary := fold_left (fun acc b => acc ++ [fromCharCode b]) buffer [] in
  btoa binary.

(** [base64ToArrayBuffer]: the loop stores [binary.charCodeAt(i)] at [i]. *)
Definition base64ToArrayBuffer (base64 : JsString) : option (list Byte.byte) :=
  binary ← atob base64;
  Some (List.map to_uint8 binary).

End Base64.

(** ** The clipboard table and its cleanup trigger *)

Module Db.

(** A row of [clipboard_items], with the columns the trigger reads: [id]
    (the primary key), [user_id] (NOT NULL) and [created_at], which has a
    default but may be NULL. *)
Record Row : Type := mkRow {
  id : N;
  user_id : N;
  created_at : option Z
}.

(** [a] may stand before [b] under [ORDER BY created_at DESC]; PostgreSQL
    puts NULL first in a descending order. *)
Definition desc_le (a b : Row) : bool :=
  match created_at a, created_at b with
  | None, _ => true
  | Some _, None => false
  | Some x, Some y => (y <=? x)%Z
  end.

(** One way to order: a stable insertion sort. The order of rows with equal
    [created_at] is the engine's choice; the trigger below takes the
    ordering as a parameter. *)
Fixpoint insert_desc (r : Row) (l : list Row) : list Row :=
  match l with
  | [] => [r]
  | x :: rest => if desc_le x r then x :: insert_desc r rest else r :: l
  end.

Fixpoint sort_desc (l : list Row) : list Row :=
  match l with
  | [] => []
  | r :: rest => insert_desc r (sort_desc rest)
  end.

Section Trigger.

Variable order_by_created_at_desc : list Row -> list Row.

(** [SELECT id FROM clipboard_items WHERE user_id = NEW.user_id
     ORDER BY created_at DESC LIMIT 20] *)
Definition most_recent_ids (u : N) (t : list Row) : list N :=
  List.map id
    (firstn 20 (order_by_created_at_desc (List.filter (fun r => user_id r =? u) t))).

(** [cleanup_old_clipboard_items]: the DELETE keeps a row unless it is of
    [NEW.user_id] and its id is not among the selected ones. *)
Definition cleanup_old_clipboard_items (new : Row) (t : list Row) : list Row :=
  let keep := most_recent_ids (user_id new) t in
  List.filter
    (fun r => negb ((user_id r =? user_id new) && negb (existsb (N.eqb (id r)) keep)))
    t.

(** [INSERT INTO clipboard_items] of one row, followed by
    [trigger_cleanup_old_clipboard]; [None] when the primary key is taken. *)
Definition insert (new : Row) (t : list Row) : option (list Row) :=
  if existsb (fun r => id r =? id new) t then None
  else Some (cleanup_old_clipboard_items new (t ++ [new])).

(** [DELETE FROM clipboard_items WHERE id = i], as the history endpoints
    issue it. *)
Definition delete_item (i : N) (t : list Row) : list Row :=
  List.filter (fun r => negb (id r =? i)) t.

Inductive Stmt : Type :=
| Insert (new : Row)
| Delete (i : N).

(** A run of statements from a given table; a rejected insert leaves the
    table as it was. *)
Fixpoint exec (ss : list Stmt) (t : list Row) : list Row :=
  match ss with
  | [] => t
  | Insert new :: rest => exec rest (default t (insert new t))
  | Delete i :: rest => exec rest (delete_item i t)
  end.

End Trigger.

Definition items_of (u : N) (t : list Row) : list Row :=
  List.filter (fun r => user_id r =? u) t.

End Db.

(** ** The server-side contracts *)

Module Server.

(** Modelled from the spec: the back end (deduplicator, connection
    registry, broadcast dispatcher) is missing from the sources; the
    definitions of this module follow sections 3, 4.1, 4.2 and 4.3 of the
    specification. *)
Record DeviceConnection : Type := mkConn {
  device : string;
  owner : string;
  connected_since : Z;
  last_heartbeat : Z;
  transport : nat
}.

(** Modelled from the spec: the RegistrySet of section 3, missing from the
    sources: a mapping from user to connections keyed by device id. *)
Abbreviation Registry := (gmap string (gmap string DeviceConnection)).

(** Modelled from the spec: the connections of one user; a user the
    registry does not know has none (section 4.1, failure conditions). *)
Definition devices_of (user : string) (reg : Registry) : gmap string DeviceConnection :=
  default ∅ (reg !! user).

(** Modelled from the spec: [register(user, connection)] of section 4.1,
    missing from the sources: insert or replace under (user, device id),
    and report the connection replaced, if any. *)
Definition register (user : string) (c : DeviceConnection) (reg : Registry)
    : Registry * option DeviceConnection :=
  let m := devices_of user reg in
  (<[user := <[device c := c]> m]> reg, m !! device c).

(** Modelled from the spec: [unregister(user, deviceId)] of section 4.1,
    missing from the sources: remove if present, nothing otherwise. *)
Definition unregister (user deviceId : string) (reg : Registry) : Registry :=
  match reg !! user with
  | Some m => <[user := delete deviceId m]> reg
  | None => reg
  end.

(** Modelled from the spec: [listLive(user)] of section 4.1, missing from
    the sources: a copy of the connections registered for the user. *)
Definition listLive (user : string) (reg : Registry) : list DeviceConnection :=
  (map_to_list (devices_of user reg)).*2.

(** Modelled from the spec: the register step of the Lifecycle Manager
    (sections 4.1 and 4.4), missing from the sources: when [register]
    reports a replaced connection, its transport is closed. The second
    component logs the transports closed, oldest first. *)
Definition lifecycle_register (user : string) (c : DeviceConnection)
    (st : Registry * list nat) : Registry * list nat :=
  let '(reg', replaced) := register user c st.1 in
  (reg', st.2 ++ option_list (transport <$> replaced)).

(** Modelled from the spec: a run of such register steps, in order. *)
Definition register_all (user : string) (cs : list DeviceConnection)
    (st : Registry * list nat) : Registry * list nat :=
  fold_left (fun s c => lifecycle_register user c s) cs st.

(** Modelled from the spec: every entry of a registry built by [register]
    is stored under its own device id. *)
Definition keyed (reg : Registry) : Prop :=
  ∀ u m d c, reg !! u = Some m → m !! d = Some c → device c = d.

Section Dispatcher.

(** Modelled from the spec: the ClipboardEvent of section 3 is opaque to
    the dispatcher. *)
Variable Event : Type.

(** Modelled from the spec: one delivery attempt on a connection's
    transport; [false] when it fails (transport closed, buffer full,
    timeout). *)
Variable send : DeviceConnection -> Event -> bool.

(** Modelled from the spec: the fan-out over a snapshot (section 4.3),
    missing from the sources: one attempt per connection that is not the
    excluded origin; a failed attempt does not end the loop. *)
Fixpoint deliver_all (snapshot : list DeviceConnection) (event : Event)
    (origin : option string) : list (DeviceConnection * bool) :=
  match snapshot with
  | [] => []
  | c :: rest =>
      if bool_decide (origin = Some (device c)) then deliver_all rest event origin
      else (c, send c event) :: deliver_all rest event origin
  end.

(** Modelled from the spec: [publish(user, event, originDeviceId?)] of
    section 4.3, missing from the sources. *)
Definition publish (user : string) (event : Event) (origin : option string)
    (reg : Registry) : list (DeviceConnection * bool) :=
  deliver_all (listLive user reg) event origin.

End Dispatcher.

(** Modelled from the spec: the default retention horizon of the
    FingerprintWindow (section 3), in seconds. *)
Definition default_horizon : Z := 60.

(** Modelled from the spec: the FingerprintWindow of section 3 and
    [shouldAccept(user, fingerprint, now)] of section 4.2, missing from the
    sources: reject when an entry for the key lies within the horizon of
    [now], otherwise record [now] and accept. Times and the horizon are in
    seconds. *)
Definition shouldAccept (horizon : Z) (user fingerprint : string) (now : Z)
    (fw : gmap (string * string) Z) : bool * gmap (string * string) Z :=
  match fw !! (user, fingerprint) with
  | Some seen =>
      if bool_decide (now - seen < horizon)%Z then (false, fw)
      else (true, <[(user, fingerprint) := now]> fw)
  | None => (true, <[(user, fingerprint) := now]> fw)
  end.

(** Modelled from the spec: the window after a run of deduplicator calls,
    each given as (user, fingerprint, now). *)
Definition calls (horizon : Z) (cs : list (string * string * Z))
    (fw : gmap (string * string) Z) : gmap (string * string) Z :=
  fold_left (fun w '(u, f, t) => (shouldAccept horizon u f t w).2) cs fw.

End Server.

(** ** Worlds used in the statements *)

Module ClientInv.
Import Client.

(** The worlds the provider can be in: it starts as first rendered; its
    effect runs and is cleaned up as the auth state changes; the auth
    provider writes the local storage; the browser dispatches events. *)
Inductive reachable (decrypt : JsVal -> JsVal -> option string) : World -> Prop :=
| reach_initial ls : reachable decrypt (initial ls)
| reach_mount env w : reachable decrypt w -> reachable decrypt (effect_mount env w)
| reach_cleanup w : reachable decrypt w -> reachable decrypt (effect_cleanup w)
| reach_storage ls w : reachable decrypt w -> reachable decrypt (set_localStorage ls w)
| reach_step e w w' :
    reachable decrypt w -> step decrypt e w = Some w' -> reachable decrypt w'.

(** Every socket and every pending timer was made by a [connect] that saw
    [isAuthenticated] true. *)
Definition authenticated_closures (w : World) : Prop :=
  (∀ ws env st, sockets w !! ws = Some (env, st) → isAuthenticated env = true) ∧
  (∀ h d env, timers w !! h = Some (d, env) → isAuthenticated env = true).

(** The provider holds exactly one socket, the one [connect] of [env]
    made last, no timer is pending, and a later [connect] of [env] would
    go through. *)
Definition single (env : Closure) (w : World) : Prop :=
  isAuthenticated env = true ∧
  truthy_str (deviceId env) = true ∧
  truthy_str (localStorage w !! "access_token"%string) = true ∧
  timers w = ∅ ∧
  ∃ ws st, wsRef w = Some ws ∧ sockets w = {[ws := (env, st)]}.

Definition demo_env : Closure := mkClosure true (Some "device-1"%string).

Definition demo_storage : gmap string string :=
  {["access_token"%string := "token-1"%string]}.

(** The provider right after its effect has run for [demo_env]. *)
Definition demo_world : World := effect_mount demo_env (initial demo_storage).

Definition no_decrypt : JsVal -> JsVal -> option string := fun _ _ => None.

(** The same provider once its socket has opened. *)
Definition demo_open : World :=
  default demo_world (step no_decrypt (EvOpen 0%nat) demo_world).

Definition demo_ping : JsVal :=
  JObj [("type"%string, JStr "ping"); ("timestamp"%string, JStr "2025-11-25T10:35:00Z")].

End ClientInv.

Module AuthInv.

(** A session as stored on a device that has synced before. *)
Definition demo_state : Auth.State :=
  Auth.mkState true (Some (JObj [("email"%string, JStr "user@example.com")]))
    (Some "device-1"%string) false
    (list_to_map [("access_token"%string, "token-1"%string);
                  ("user_id"%string, "user-1"%string);
                  ("device_id"%string, "device-1"%string);
                  ("encryption_key"%string, "jwk-1"%string);
                  ("theme"%string, "dark"%string)]).

End AuthInv.

Module DbInv.
Import Db.

(** Twenty rows of user 7, created at 1..20, among rows of user 8; the
    insert of a twenty-first row of user 7, created at 21. *)
Definition demo_table : list Row :=
  mkRow 100 8 (Some 5%Z) ::
  List.map (fun k => mkRow (N.of_nat k) 7 (Some (Z.of_nat k))) (seq 1 20)
  ++ [mkRow 101 8 None].

Definition demo_new : Row := mkRow 21 7 (Some 21%Z).

Definition demo_after : list Row :=
  default demo_table (insert sort_desc demo_new demo_table).

End DbInv.

Module ServerInv.
Import Server.

Definition conn (dev : string) (tr : nat) (since : Z) : DeviceConnection :=
  mkConn dev "u1" since since tr.

(** Device A reconnecting twice without closing its socket. *)
Definition demo_reconnects : list DeviceConnection :=
  [conn "A" 1 10; conn "A" 2 20; conn "A" 3 30].

(** Devices A and B of user u1 online. *)
Definition demo_registry : Registry :=
  (register "u1" (conn "B" 2 20) (register "u1" (conn "A" 1 10) ∅).1).1.

(** Every attempt succeeds but the one on transport 2. *)
Definition demo_send (c : DeviceConnection) (e : string) : bool :=
  negb (Nat.eqb (transport c) 2).

End ServerInv.

(* ===================================================================== *)
(** * Part I, continued -- further code of the client and the schema      *)
(* ===================================================================== *)

(** ** Runs of browser events, and what the provider keeps *)

Module ClientRuns.
Import Client.

(** The events of [es] dispatched one after the other; [None] as soon as
    one of them cannot occur. *)
Fixpoint run (decrypt : JsVal -> JsVal -> option string) (es : list Event) (w : World)
    : option World :=
  match es with
  | [] => Some w
  | e :: rest => w1 ← step decrypt e w; run decrypt rest w1
  end.

Definition is_message (e : Event) : bool :=
  match e with
  | EvMessage _ _ => true
  | _ => false
  end.

(** The two shapes of the object literal the ping branch serialises: with
    the timestamp of the ping, or without it when the ping had none. *)
Definition pong_frame (frame : JsVal) : Prop :=
  frame = JObj [("type"%string, JStr "pong")] ∨
  ∃ ts, ts ≠ JUndefined ∧
        frame = JObj [("type"%string, JStr "pong"); ("timestamp"%string, ts)].

(** What the provider's refs and state say about the sockets: every socket
    handle is below the next one to be given out, the [isConnected] flag
    is only up while some socket that has opened awaits its close event,
    and [wsRef] only holds a socket whose close event is still to come. *)
Definition consistent (w : World) : Prop :=
  (∀ ws, is_Some (sockets w !! ws) → (ws < nextHandle w)%nat) ∧
  (isConnected w = true → ∃ ws env, sockets w !! ws = Some (env, Open)) ∧
  (∀ ws, wsRef w = Some ws → is_Some (sockets w !! ws)).

(** What a message leaves alone: everything but [lastUpdate], the system
    clipboard and the frames sent. *)
Definition same_connection_state (w w' : World) : Prop :=
  isConnected w' = isConnected w ∧ wsRef w' = wsRef w ∧
  reconnectTimeoutRef w' = reconnectTimeoutRef w ∧
  reconnectAttempts w' = reconnectAttempts w ∧
  localStorage w' = localStorage w ∧ sockets w' = sockets w ∧
  timers w' = timers w ∧ nextHandle w' = nextHandle w.


(** The provider after two failed attempts, its third socket connecting. *)
Definition demo_retrying : World :=
  default ClientInv.demo_world
    (run ClientInv.no_decrypt
       [EvClose 0%nat NormalClosure; EvTimer 1%nat; EvClose 2%nat HeartbeatTimeout; EvTimer 3%nat]
       ClientInv.demo_world).


End ClientRuns.

(** ** The API client ([lib/api.ts]) *)

Module Api.


(** [process.env.X || fallback] *)
Definition env_or (v : option string) (fallback : string) : string :=
  match v with
  | Some (String c s) => String c s
  | _ => fallback
  end.

Definition WS_URL (env : option string) : string := env_or env "ws://localhost:8000".


(** [getWebSocketURL] *)
Definition getWebSocketURL (ws_url token : string) : string :=
  (ws_url ++ "/ws/clipboard?token=" ++ token)%string.

(** The request interceptor: the [Authorization] header it sets, if any. *)
Definition request_authorization (ls : gmap string string) : option string :=
  let token := ls !! "access_token"%string in
  if truthy_str token then (fun t => "Bearer " ++ t)%string <$> token else None.

(** The response interceptor on a rejected request: [status] is
    [error.response?.status]; the second component is the assignment to
    [window.location.href], if any. *)
Definition response_rejected (status : option N) (ls : gmap string string)
    : gmap string string * option string :=
  match status with
  | Some 401 =>
      (delete "device_id"%string
         (delete "user_id"%string (delete "access_token"%string ls)),
       Some "/login"%string)
  | _ => (ls, None)
  end.

End Api.

(** ** The auth provider with requests that may fail *)

Module AuthFlows.
Import Auth.

Section Flows.

Variable Key : Type.
Variable exportKey : Key -> string.
Variable importKey : string -> option Key.

Definition with_storage (ls : gmap string string) (st : State) : State :=
  mkState (isAuthenticated st) (user st) (deviceId st) (loading st) ls.

(** [checkAuth], the effect run when the provider mounts; [me] is the
    answer of [authAPI.getCurrentUser], [None] when the request fails. *)
Definition checkAuth (me : option JsVal) (st : State) : State :=
  let token := localStorage st !! "access_token"%string in
  let storedDeviceId := localStorage st !! "device_id"%string in
  let st1 :=
    if truthy_str token && truthy_str storedDeviceId then
      match me with
      | Some userData => mkState true (Some userData) storedDeviceId (loading st) (localStorage st)
      | None => logout st
      end
    else st in
  mkState (isAuthenticated st1) (user st1) (deviceId st1) false (localStorage st1).

(** [login]: [resp] is the answer of [authAPI.login] (token and user id),
    [dev] that of [deviceAPI.register] (token and device id), [me] that of
    [getCurrentUser]; [None] is a request that fails. The boolean tells
    whether [login] resolves ([true]) or throws. *)
Definition login (resp dev : option (string * string)) (me : option JsVal) (fresh : Key)
    (st : State) : State * bool :=
  match resp with
  | None => (st, false)
  | Some (token, uid) =>
      let ls := <["access_token"%string := token]> (localStorage st) in
      let ls := <["user_id"%string := uid]> ls in
      let st0 := with_storage ls st in
      match dev with
      | None => (st0, false)
      | Some (dtoken, did) =>
          let st1 := registerDevice dtoken did st0 in
          let '(k, ls') := getKey Key exportKey importKey fresh (localStorage st1) in
          let st2 := with_storage ls' st1 in
          match k, me with
          | Some _, Some userData =>
              (mkState true (Some userData) (deviceId st2) (loading st2) ls', true)
          | _, _ => (st2, false)
          end
      end
  end.

(** [register] differs from [login] in the request it starts with
    ([authAPI.register]) and in the message it throws. *)
Definition register (resp dev : option (string * string)) (me : option JsVal) (fresh : Key)
    (st : State) : State * bool :=
  match resp with
  | None => (st, false)
  | Some (token, uid) =>
      let ls := <["access_token"%string := token]> (localStorage st) in
      let ls := <["user_id"%string := uid]> ls in
      let st0 := with_storage ls st in
      match dev with
      | None => (st0, false)
      | Some (dtoken, did) =>
          let st1 := registerDevice dtoken did st0 in
          let '(k, ls') := getKey Key exportKey importKey fresh (localStorage st1) in
          let st2 := with_storage ls' st1 in
          match k, me with
          | Some _, Some userData =>
              (mkState true (Some userData) (deviceId st2) (loading st2) ls', true)
          | _, _ => (st2, false)
          end
      end
  end.

(** The states of the provider within one page load: it mounts over
    whatever the storage holds, and from then on only its own operations
    write the entries it reads (the other writers, the 401 interceptor and
    the OAuth callback, leave the page at once). *)
Inductive reachable : State -> Prop :=
| reach_mounted ls : reachable (mkState false None None true ls)
| reach_checkAuth me st : reachable st -> reachable (checkAuth me st)
| reach_login resp dev me fresh st : reachable st -> reachable (login resp dev me fresh st).1
| reach_register resp dev me fresh st :
    reachable st -> reachable (register resp dev me fresh st).1
| reach_logout st : reachable st -> reachable (logout st).


End Flows.

(** Keys as strings: the JWK text is the key behind a one-letter tag. *)
Definition demo_export (k : string) : string := ("j" ++ k)%string.
Definition demo_import (s : string) : option string :=
  match s with
  | String _ k => Some k
  | EmptyString => None
  end.

End AuthFlows.

(** ** The OAuth callback page *)

Module OAuthCallback.

(** The character a one-letter literal denotes. *)
Definition chr (s : string) : Ascii.ascii :=
  match s with
  | String c _ => c
  | EmptyString => Ascii.zero
  end.

(** The sixteen digits of [v.toString(16)] for [v] below 16. *)
Definition hex_char (v : N) : Ascii.ascii :=
  nth (N.to_nat v) (String.list_ascii_of_string "0123456789abcdef") (chr "0").

(** The callback of [replace(/[xy]/g, ...)] run over the template from
    left to right. [random16 i] is [Math.random() * 16 | 0] at the
    [i]-th match, a number from 0 to 15. *)
Fixpoint replace_xy (template : list Ascii.ascii) (random16 : nat -> N) (i : nat)
    : list Ascii.ascii :=
  match template with
  | [] => []
  | c :: rest =>
      if Ascii.eqb c (chr "x") then
        hex_char (random16 i) :: replace_xy rest random16 (S i)
      else if Ascii.eqb c (chr "y") then
        hex_char (N.lor (N.land (random16 i) 3) 8) :: replace_xy rest random16 (S i)
      else c :: replace_xy rest random16 i
  end.

(** [generateUUID]; [randomUUID] is [crypto.randomUUID()] where the
    context has it. *)
Definition generateUUID (randomUUID : option string) (random16 : nat -> N) : string :=
  match randomUUID with
  | Some u => u
  | None =>
      String.string_of_list_ascii
        (replace_xy (String.list_ascii_of_string "xxxxxxxx-xxxx-4xxx-yxxx-xxxxxxxxxxxx")
                    random16 0)
  end.

(** The textual form of a version 4 UUID: 8-4-4-4-12 lower-case
    hexadecimal digits, the version digit 4, the variant digit one of
    8, 9, a, b. *)
Definition is_hex (c : Ascii.ascii) : bool :=
  let n := Ascii.N_of_ascii c in
  ((48 <=? n) && (n <=? 57)) || ((97 <=? n) && (n <=? 102)).

Definition is_variant (c : Ascii.ascii) : bool :=
  existsb (Ascii.eqb c) (String.list_ascii_of_string "89ab").

Fixpoint all_hex (n : nat) (s : list Ascii.ascii) : option (list Ascii.ascii) :=
  match n, s with
  | O, _ => Some s
  | S n', c :: rest => if is_hex c then all_hex n' rest else None
  | S _, [] => None
  end.

Definition uuid_v4 (u : string) : bool :=
  match all_hex 8 (String.list_ascii_of_string u) with
  | Some (d1 :: s1) =>
      match all_hex 4 s1 with
      | Some (d2 :: v :: s2) =>
          match all_hex 3 s2 with
          | Some (d3 :: y :: s3) =>
              match all_hex 3 s3 with
              | Some (d4 :: s4) =>
                  match all_hex 12 s4 with
                  | Some [] =>
                      Ascii.eqb d1 (chr "-") && Ascii.eqb d2 (chr "-") && Ascii.eqb v (chr "4") &&
                      Ascii.eqb d3 (chr "-") && is_variant y && Ascii.eqb d4 (chr "-")
                  | _ => false
                  end
              | _ => false
              end
          | _ => false
          end
      | _ => false
      end
  | _ => false
  end.

(** The page's state, the two storages it writes, and what it asks of
    the router and of [window.location]. *)
Record Page : Type := mkPage {
  hasProcessed : bool;                       (* useRef(false) *)
  error : option string;                     (* useState(null) *)
  isProcessing : bool;                       (* useState(false) *)
  sessionStorage : gmap string string;
  localStorage : gmap string string;
  location : option string;                  (* window.location.href = ... *)
  login_redirects : nat                      (* setTimeout(() => router.push('/login'), 3000) *)
}.

Section Callback.

Variable Key : Type.
Variable exportKey : Key -> string.
Variable importKey : string -> option Key.

(** What a rejected request or a failed import throws, and the message
    the catch block makes of it. *)
Variable Err : Type.
Variable describe : Err -> string.
Variable import_error : Err.

(** [handleCallback]. [code], [state] and [errorParam] are the search
    parameters; [googleCallback code state] is the answer of
    [oauthAPI.googleCallback], [registered] that of [deviceAPI.register]. *)
Definition handleCallback (code state errorParam : option string)
    (googleCallback : string -> option string -> Err + (string * string))
    (registered : Err + (string * string)) (fresh : Key) (pg : Page) : Page :=
  if hasProcessed pg then pg
  else if truthy_str errorParam then
    mkPage true (Some "Google authentication was cancelled or failed"%string)
           (isProcessing pg) (sessionStorage pg) (localStorage pg) (location pg)
           (S (login_redirects pg))
  else
    match code with
    | Some (String c0 cs) =>
        let ss := delete "oauth_state"%string (sessionStorage pg) in
        let failed (e : Err) (ls : gmap string string) :=
          mkPage true (Some (describe e)) false ss ls (location pg) (login_redirects pg) in
        match googleCallback (String c0 cs) (if truthy_str state then state else None) with
        | inl e => failed e (localStorage pg)
        | inr (token, uid) =>
            let ls := <["access_token"%string := token]> (localStorage pg) in
            let ls := <["user_id"%string := uid]> ls in
            match registered with
            | inl e => failed e ls
            | inr (dtoken, did) =>
                let ls := <["access_token"%string := dtoken]> ls in
                let ls := <["device_id"%string := did]> ls in
                let '(k, ls') := Auth.getKey Key exportKey importKey fresh ls in
                match k with
                | None => failed import_error ls'
                | Some _ =>
                    mkPage true (error pg) true ss ls' (Some "/dashboard"%string)
                           (login_redirects pg)
                end
            end
        end
    | _ =>
        mkPage true (Some "No authorization code received"%string)
               (isProcessing pg) (sessionStorage pg) (localStorage pg) (location pg)
               (S (login_redirects pg))
    end.

End Callback.

(** The page as it mounts. *)
Definition mounted (ss ls : gmap string string) : Page :=
  mkPage false None false ss ls None 0.

Definition demo_random (i : nat) : N := N.of_nat (i * 7 mod 16).

End OAuthCallback.

(** ** The rest of the encryption service *)

Module Crypto.
Import Base64.

Definition IV_LENGTH : nat := 12.

(** [generateIV]: [random i] is the [i]-th byte [crypto.getRandomValues]
    writes. *)
Definition generateIV (random : nat -> Byte.byte) : list Byte.byte :=
  List.map random (seq 0 IV_LENGTH).

Definition hex_unit (v : N) : N := Ascii.N_of_ascii (OAuthCallback.hex_char v).

(** [b.toString(16)] for an element of a [Uint8Array]: one digit below
    16, two from there on. *)
Definition toString16 (b : Byte.byte) : JsString :=
  let n := Byte.to_N b in
  if n <? 16 then [hex_unit n] else [hex_unit (n / 16); hex_unit (n mod 16)].

(** [s.padStart(targetLength, c)] for a one-character [c]. *)
Definition padStart (targetLength : nat) (c : N) (s : JsString) : JsString :=
  repeat c (targetLength - length s) ++ s.

(** [hashArray.map(b => b.toString(16).padStart(2, '0')).join('')] *)
Definition hex_of_bytes (hashArray : list Byte.byte) : JsString :=
  concat (List.map (fun b => padStart 2 48 (toString16 b)) hashArray).

Definition is_lower_hex (c : N) : bool :=
  ((48 <=? c) && (c <=? 57)) || ((97 <=? c) && (c <=? 102)).

Section Service.

Variable Key : Type.
Variable exportKey : Key -> string.
Variable importKey : string -> option Key.

(** The platform's parts: [TextEncoder.encode], [TextDecoder.decode],
    [crypto.subtle.digest('SHA-256', _)], and AES-GCM under a key and an
    IV, whose decryption rejects ([None]) what it cannot authenticate. *)
Variable utf8_encode : JsString -> list Byte.byte.
Variable utf8_decode : list Byte.byte -> JsString.
Variable sha256 : list Byte.byte -> list Byte.byte.
Variable aes_gcm_encrypt : Key -> list Byte.byte -> list Byte.byte -> list Byte.byte.
Variable aes_gcm_decrypt : Key -> list Byte.byte -> list Byte.byte -> option (list Byte.byte).

(** [EncryptionService.hash] *)
Definition hash (content : JsString) : JsString :=
  hex_of_bytes (sha256 (utf8_encode content)).

(** [EncryptionService.encrypt]; [None] when it rejects. [fresh] is the
    key the platform would draw, [random] the bytes it gives the IV. *)
Definition encrypt (fresh : Key) (random : nat -> Byte.byte) (plaintext : JsString)
    (ls : gmap string string) : option (JsString * JsString) * gmap string string :=
  let '(key, ls1) := Auth.getKey Key exportKey importKey fresh ls in
  (k ← key;
   let iv := generateIV random in
   let data := utf8_encode plaintext in
   let encryptedData := aes_gcm_encrypt k iv data in
   encryptedBase64 ← arrayBufferToBase64 encryptedData;
   ivBase64 ← arrayBufferToBase64 iv;
   Some (encryptedBase64, ivBase64),
   ls1).

(** [EncryptionService.decrypt]; [None] when it rejects. *)
Definition decrypt (fresh : Key) (encrypted iv : JsString) (ls : gmap string string)
    : option JsString * gmap string string :=
  let '(key, ls1) := Auth.getKey Key exportKey importKey fresh ls in
  (k ← key;
   encryptedData ← base64ToArrayBuffer encrypted;
   ivData ← base64ToArrayBuffer iv;
   decryptedData ← aes_gcm_decrypt k ivData encryptedData;
   Some (utf8_decode decryptedData),
   ls1).

End Service.

(** Stand-ins for the platform, to run the service on: bytes of Latin-1
    text, a digest of 32 bytes, and a cipher that reverses the data behind the IV. *)
Definition demo_encode (s : JsString) : list Byte.byte := List.map to_uint8 s.
Definition demo_decode (l : list Byte.byte) : JsString := List.map fromCharCode l.
Definition demo_digest (l : list Byte.byte) : list Byte.byte :=
  firstn 32 (l ++ repeat Byte.x00 32).
Definition demo_seal (k : string) (iv data : list Byte.byte) : list Byte.byte :=
  iv ++ rev data.
Definition demo_open (k : string) (iv ct : list Byte.byte) : option (list Byte.byte) :=
  if (length iv <=? length ct)%nat then Some (rev (skipn (length iv) ct)) else None.
Definition demo_bytes (i : nat) : Byte.byte := to_uint8 (N.of_nat (37 * i + 11)).

End Crypto.

(** ** The clipboard monitor of the dashboard *)

Module Dashboard.
Import Base64.






End Dashboard.

Module DbMore.
Import Db.

(** Rows of user 7 created at 1..5, and twenty created at 1..20. *)
Definition few_rows : list Row :=
  List.map (fun k => mkRow (N.of_nat k) 7 (Some (Z.of_nat k))) (seq 1 5).

Definition full_rows : list Row :=
  List.map (fun k => mkRow (N.of_nat k) 7 (Some (Z.of_nat k))) (seq 1 20).

End DbMore.

(** ** The foreign keys of the schema *)

Module Schema.

(** The four tables, with the keys and references their constraints are
    about: [user_id ... REFERENCES users(id) ON DELETE CASCADE] on
    devices and clipboard items, [device_id ... REFERENCES devices(id)
    ON DELETE SET NULL] on clipboard items, and [device_id ... REFERENCES
    devices(id) ON DELETE CASCADE] on device sessions. *)
Record Device : Type := mkDevice { dev_id : N; dev_user : N }.
Record Item : Type := mkItem { item_id : N; item_user : N; item_device : option N }.
Record Session : Type := mkSession { sess_id : N; sess_device : N }.

Record Database : Type := mkDatabase {
  users : list N;
  devices : list Device;
  clipboard_items : list Item;
  device_sessions : list Session
}.

Definition mem (x : N) (l : list N) : bool := existsb (N.eqb x) l.

(** [ON DELETE SET NULL] for the devices in [gone]. *)
Definition detach (gone : list N) (i : Item) : Item :=
  match item_device i with
  | Some d => if mem d gone then mkItem (item_id i) (item_user i) None else i
  | None => i
  end.

(** [DELETE FROM devices WHERE id = d], with what the references to the
    deleted rows bring about. *)
Definition delete_device (d : N) (db : Database) : Database :=
  mkDatabase (users db)
    (List.filter (fun x => negb (dev_id x =? d)) (devices db))
    (List.map (detach [d]) (clipboard_items db))
    (List.filter (fun s => negb (sess_device s =? d)) (device_sessions db)).

(** [DELETE FROM users WHERE id = u]: the user's devices go, and with
    them their sessions and the device of the items they made; the user's
    items go. *)
Definition delete_user (u : N) (db : Database) : Database :=
  let gone := List.map dev_id (List.filter (fun x => dev_user x =? u) (devices db)) in
  mkDatabase
    (List.filter (fun x => negb (x =? u)) (users db))
    (List.filter (fun x => negb (dev_user x =? u)) (devices db))
    (List.map (detach gone)
       (List.filter (fun i => negb (item_user i =? u)) (clipboard_items db)))
    (List.filter (fun s => negb (mem (sess_device s) gone)) (device_sessions db)).

(** Every reference points at a row that is there. *)
Definition referential_integrity (db : Database) : Prop :=
  (∀ x, In x (devices db) → In (dev_user x) (users db)) ∧
  (∀ i, In i (clipboard_items db) →
        In (item_user i) (users db) ∧
        ∀ d, item_device i = Some d → In d (List.map dev_id (devices db))) ∧
  (∀ s, In s (device_sessions db) → In (sess_device s) (List.map dev_id (devices db))).

Definition demo_db : Database :=
  mkDatabase [1; 2]
    [mkDevice 10 1; mkDevice 11 1; mkDevice 20 2]
    [mkItem 100 1 (Some 10); mkItem 101 2 (Some 10); mkItem 102 2 (Some 20); mkItem 103 1 None]
    [mkSession 1000 10; mkSession 1001 20].

End Schema.

Module MoreInputs.

Definition key_storage : gmap string string :=
  list_to_map [("encryption_key"%string, "jk0"%string); ("theme"%string, "dark"%string)].

Definition three_bytes : list Byte.byte := [Byte.x00; Byte.xff; Byte.x0a].

End MoreInputs.

(* ===================================================================== *)
(** * Part II -- properties                                               *)
(* ===================================================================== *)

(** ** The reconnection controller *)

Section ClientFacts.
Import Client ClientInv.

Variable decrypt : JsVal -> JsVal -> option string.

(** Twelve failures are asked for; the ceiling leaves ten timers. *)
Example demo_world_delays :
  fail_delays no_decrypt 12 ServerShutdown demo_world
  = [1000; 2000; 4000; 8000; 16000; 30000; 30000; 30000; 30000; 30000].
Proof. reflexivity. Qed.

(** An open in between starts the ladder again. *)
Example demo_world_reset :
  (w3 ← fail_times no_decrypt 3 NormalClosure demo_world;
   ws ← wsRef w3;
   w4 ← step no_decrypt (EvOpen ws) w3;
   Some (fail_delays no_decrypt 2 NormalClosure w4))
  = Some [1000; 2000].
Proof. reflexivity. Qed.

Lemma demo_world_single : single demo_env demo_world.
Proof.
  repeat split; try reflexivity.
  exists 0%nat, Connecting. split; reflexivity.
Qed.

(** The close event of the only socket: the handler runs on a world
    without sockets. *)
Lemma close_single env w ws st cause :
  sockets w = {[ws := (env, st)]} →
  step decrypt (EvClose ws cause) w = Some (onclose env (set_sockets ∅ w)).
Proof.
  intros Hs. unfold step. rewrite Hs, lookup_singleton_eq.
  by rewrite delete_singleton_eq.
Qed.

Lemma connect_authenticated env w :
  authenticated_closures w → authenticated_closures (connect env w).
Proof.
  intros [Hs Ht]. unfold connect.
  destruct (isAuthenticated env) eqn:Ha; simpl; [| done].
  destruct (negb (truthy_str (deviceId env))); [done |].
  destruct (negb (truthy_str (localStorage w !! "access_token"%string))); [done |].
  split; simpl.
  - intros ws env' st H. apply lookup_insert_Some in H as [[_ [= <- _]] | [_ H]]; eauto.
  - exact Ht.
Qed.

Lemma onmessage_frame ws parsed w :
  sockets (onmessage decrypt ws parsed w) = sockets w ∧
  timers (onmessage decrypt ws parsed w) = timers w ∧
  reconnectAttempts (onmessage decrypt ws parsed w) = reconnectAttempts w.
Proof.
  unfold onmessage, on_clipboard_update.
  repeat (match goal with
          | |- context [match ?x with _ => _ end] => destruct x
          end; simpl; try done).
Qed.

(** On every reachable world the sockets and timers carry authenticated
    closures: [connect] returns early otherwise. *)
Lemma reachable_authenticated w : reachable decrypt w → authenticated_closures w.
Proof.
  induction 1 as [ls | env w _ IH | w _ IH | ls w _ IH | e w w' _ IH Hstep].
  - split; intros ? ? ? H; simpl in H; by rewrite lookup_empty in H.
  - unfold effect_mount. destruct (_ && _); [by apply connect_authenticated | done].
  - destruct IH as [Hs Ht]. unfold effect_cleanup.
    destruct (reconnectTimeoutRef w) as [h |]; [| done]. split; simpl; [done |].
    intros h' d env H. apply lookup_delete_Some in H as [_ H]. eauto.
  - done.
  - destruct IH as [Hs Ht]. destruct e as [ws | ws parsed | ws | ws cause | h];
      unfold step in Hstep.
    + destruct (sockets w !! ws) as [[env [|]] |] eqn:E; try done.
      injection Hstep as <-. split; simpl; [| done].
      intros ws' env' st H. apply lookup_insert_Some in H as [[_ [= <- _]] | [_ H]]; eauto.
    + destruct (sockets w !! ws) as [[env [|]] |] eqn:E; try done.
      injection Hstep as <-.
      destruct (onmessage_frame ws parsed w) as (Hs' & Ht' & _).
      unfold authenticated_closures. by rewrite Hs', Ht'.
    + destruct (sockets w !! ws); [| done]. by injection Hstep as <-.
    + destruct (sockets w !! ws) as [[env st] |] eqn:E; [| done].
      injection Hstep as <-. unfold onclose. simpl.
      destruct (isAuthenticated env) eqn:Ha; simpl;
        [destruct (reconnectAttempts w <? 10); simpl |].
      * split; simpl.
        -- intros ws' env' st' H. apply lookup_delete_Some in H as [_ H]. eauto.
        -- intros h d env' H.
           apply lookup_insert_Some in H as [[_ [= _ <-]] | [_ H]]; eauto.
      * split; simpl; [| done].
        intros ws' env' st' H. apply lookup_delete_Some in H as [_ H]. eauto.
      * split; simpl; [| done].
        intros ws' env' st' H. apply lookup_delete_Some in H as [_ H]. eauto.
    + destruct (timers w !! h) as [[d env] |] eqn:E; [| done].
      injection Hstep as <-. unfold reconnect_callback. apply connect_authenticated.
      split; simpl; [done |].
      intros h' d' env' H. apply lookup_delete_Some in H as [_ H]. eauto.
Qed.

(** One failed attempt from a [single] world below the ceiling: the timer
    set has the delay of the current count, and the world after the timer
    fired is [single] again with the count one higher. *)
Lemma fail_once_single env w cause :
  single env w → reconnectAttempts w < 10 →
  ∃ ws w1 h w2,
    wsRef w = Some ws ∧
    step decrypt (EvClose ws cause) w = Some w1 ∧
    reconnectTimeoutRef w1 = Some h ∧
    timers w1 !! h = Some (backoff_delay (reconnectAttempts w), env) ∧
    step decrypt (EvTimer h) w1 = Some w2 ∧
    fail_once decrypt cause w = Some w2 ∧
    single env w2 ∧
    reconnectAttempts w2 = reconnectAttempts w + 1.
Proof.
  intros (Ha & Hd & Ht & Htm & ws & st & Hws & Hs) Hlt.
  pose proof (close_single env w ws st cause Hs) as Hc.
  assert (Hlt' : (reconnectAttempts w <? 10) = true) by by apply N.ltb_lt.
  set (w1 := onclose env (set_sockets ∅ w)) in *.
  assert (Hw1 : w1 = setTimeout_reconnect (backoff_delay (reconnectAttempts w)) env
                       (set_wsRef None (set_isConnected false (set_sockets ∅ w)))).
  { unfold w1, onclose. simpl. by rewrite Ha, Hlt'. }
  set (h := nextHandle w).
  assert (Hh : reconnectTimeoutRef w1 = Some h) by by rewrite Hw1.
  assert (Hth : timers w1 !! h = Some (backoff_delay (reconnectAttempts w), env)).
  { rewrite Hw1. simpl. by rewrite lookup_insert_eq. }
  assert (Hstep : step decrypt (EvTimer h) w1
                  = Some (reconnect_callback env (set_timers (delete h (timers w1)) w1))).
  { unfold step. by rewrite Hth. }
  eexists ws, w1, h, _. repeat split; try done.
  - unfold fail_once. rewrite Hws. unfold mbind, option_bind. rewrite Hc, Hh. exact Hstep.
  - rewrite Hw1. unfold reconnect_callback, connect. simpl. by rewrite Ha, Hd, Ht.
  - rewrite Hw1. unfold reconnect_callback, connect. simpl. rewrite Ha, Hd, Ht. simpl.
    rewrite Htm. by rewrite delete_insert_eq, delete_empty.
  - rewrite Hw1. unfold reconnect_callback, connect. simpl. rewrite Ha, Hd, Ht. simpl.
    eexists _, _. split; [reflexivity |]. by rewrite insert_empty.
  - rewrite Hw1. unfold reconnect_callback, connect. simpl. by rewrite Ha, Hd, Ht.
Qed.

Lemma fail_times_single k : ∀ env w cause,
  single env w → reconnectAttempts w + N.of_nat k <= 10 →
  ∃ wk, fail_times decrypt k cause w = Some wk ∧ single env wk ∧
        reconnectAttempts wk = reconnectAttempts w + N.of_nat k.
Proof.
  induction k as [|k IH]; intros env w cause Hs Hle.
  - exists w. simpl. split; [done |]. split; [done | lia].
  - destruct (fail_once_single env w cause Hs) as (ws & w1 & h & w2 & _ & _ & _ & _ & _ & Hf & Hs2 & Hn);
      [lia |].
    destruct (IH env w2 cause Hs2) as (wk & Hk & Hsk & Hnk); [lia |].
    exists wk. simpl. rewrite Hf. simpl. split; [done |]. split; [done | lia].
Qed.

Lemma fail_delays_single k : ∀ env w cause,
  single env w → reconnectAttempts w + N.of_nat k <= 10 →
  fail_delays decrypt k cause w
  = List.map (fun i => backoff_delay (reconnectAttempts w + N.of_nat i)) (seq 0 k).
Proof.
  induction k as [|k IH]; intros env w cause Hs Hle; [reflexivity |].
  destruct (fail_once_single env w cause Hs) as (ws & w1 & h & w2 & Hws & Hc & Hh & Ht & Hst & _ & Hs2 & Hn);
    [lia |].
  cbn [fail_delays]. rewrite Hws, Hc, Hh, Ht, Hst.
  rewrite (IH env w2 cause Hs2) by lia.
  cbn [seq List.map]. rewrite N.add_0_r. f_equal.
  rewrite <- seq_shift, List.map_map. apply List.map_ext. intros i. f_equal. lia.
Qed.

(** C2: a close that sets a reconnect timer gives it the delay
    [min(1000 * 2^attempt, 30000)] ms, [attempt] being the counter it
    reads. While the socket fails [k] times in a row from a fresh
    connection ([k] below the ceiling of 10), the counter read by the next
    close is [k], so that the delay is [min(1000 * 2^k, 30000)]; the first
    seven delays are 1000, 2000, 4000, 8000, 16000, 30000, 30000. *)
Theorem C2_backoff_delay :
  (∀ w ws env st cause w',
     sockets w !! ws = Some (env, st) →
     step decrypt (EvClose ws cause) w = Some w' →
     timers w' = timers w ∨
     timers w' = <[nextHandle w := (N.min (1000 * 2 ^ reconnectAttempts w) 30000, env)]>
                   (timers w)) ∧
  (∀ env w cause,
     single env w → reconnectAttempts w = 0 →
     (∀ k : nat, (k < 10)%nat →
        ∃ wk ws w1 h,
          fail_times decrypt k cause w = Some wk ∧
          reconnectAttempts wk = N.of_nat k ∧
          wsRef wk = Some ws ∧
          step decrypt (EvClose ws cause) wk = Some w1 ∧
          reconnectTimeoutRef w1 = Some h ∧
          timers w1 !! h = Some (N.min (1000 * 2 ^ N.of_nat k) 30000, env)) ∧
     fail_delays decrypt 7 cause w = [1000; 2000; 4000; 8000; 16000; 30000; 30000]).
Proof.
  split.
  - intros w ws env st cause w' Hs Hstep. unfold step in Hstep. rewrite Hs in Hstep.
    injection Hstep as <-. unfold onclose. simpl.
    destruct (isAuthenticated env && (reconnectAttempts w <? 10)); simpl; auto.
  - intros env w cause Hs H0. split.
    + intros k Hk.
      destruct (fail_times_single k env w cause Hs) as (wk & Hf & Hsk & Hn); [lia |].
      destruct (fail_once_single env wk cause Hsk) as (ws & w1 & h & _ & Hws & Hc & Hh & Ht & _);
        [lia |].
      assert (Hk' : reconnectAttempts wk = N.of_nat k) by lia.
      exists wk, ws, w1, h. rewrite Ht, Hk'. done.
    + rewrite (fail_delays_single 7 env w cause Hs) by lia. rewrite H0. reflexivity.
Qed.

(** C3 as amended: the close handler never looks at the cause. Whatever
    the cause, a close sets a reconnect timer, with the backoff delay of
    the counter, when the counter is below 10, and sets none when the
    counter has reached 10. *)
Theorem C3_close_cause_ignored w ws env st cause :
  reachable decrypt w →
  sockets w !! ws = Some (env, st) →
  step decrypt (EvClose ws cause) w = step decrypt (EvClose ws NormalClosure) w ∧
  ∃ w', step decrypt (EvClose ws cause) w = Some w' ∧
        (reconnectAttempts w < 10 →
           reconnectTimeoutRef w' = Some (nextHandle w) ∧
           timers w' = <[nextHandle w := (backoff_delay (reconnectAttempts w), env)]> (timers w)) ∧
        (10 <= reconnectAttempts w →
           timers w' = timers w ∧ reconnectTimeoutRef w' = reconnectTimeoutRef w).
Proof.
  intros Hr Hs. split; [reflexivity |].
  destruct (reachable_authenticated w Hr) as [Hauth _].
  pose proof (Hauth ws env st Hs) as Ha.
  unfold step. rewrite Hs. eexists. split; [reflexivity |].
  unfold onclose. simpl. rewrite Ha. simpl. split; intros Hn.
  - apply N.ltb_lt in Hn. by rewrite Hn.
  - apply N.ltb_ge in Hn. by rewrite Hn.
Qed.

(** C4: every open resets the counter to 0; a close that finds the counter
    at 10 or above sets no timer and leaves the provider disconnected; and
    after ten failures in a row from a fresh connection the counter is 10,
    the next close leaves neither socket nor timer, so that no event can
    reach the provider any more. *)
Theorem C4_reset_and_ceiling :
  (∀ w ws env, sockets w !! ws = Some (env, Connecting) →
     ∃ w', step decrypt (EvOpen ws) w = Some w' ∧
           reconnectAttempts w' = 0 ∧ isConnected w' = true) ∧
  (∀ w ws env st cause, sockets w !! ws = Some (env, st) → 10 <= reconnectAttempts w →
     ∃ w', step decrypt (EvClose ws cause) w = Some w' ∧
           timers w' = timers w ∧ reconnectTimeoutRef w' = reconnectTimeoutRef w ∧
           isConnected w' = false ∧ wsRef w' = None ∧
           reconnectAttempts w' = reconnectAttempts w) ∧
  (∀ env w cause, single env w → reconnectAttempts w = 0 →
     ∃ w10 ws w',
       fail_times decrypt 10 cause w = Some w10 ∧ reconnectAttempts w10 = 10 ∧
       wsRef w10 = Some ws ∧ step decrypt (EvClose ws cause) w10 = Some w' ∧
       offline w' ∧ ∀ e, step decrypt e w' = None).
Proof.
  split; [| split].
  - intros w ws env Hs. unfold step. rewrite Hs. eexists. split; [reflexivity |]. done.
  - intros w ws env st cause Hs Hge. unfold step. rewrite Hs.
    eexists. split; [reflexivity |]. unfold onclose. simpl.
    assert ((reconnectAttempts w <? 10) = false) as -> by by apply N.ltb_ge.
    rewrite andb_false_r. done.
  - intros env w cause Hs H0.
    destruct (fail_times_single 10 env w cause Hs) as (w10 & Hf & Hs10 & Hn); [lia |].
    destruct Hs10 as (Ha & Hd & Ht & Htm & ws & st & Hws & Hsk).
    exists w10, ws, (onclose env (set_sockets ∅ w10)).
    assert (Hoff : onclose env (set_sockets ∅ w10)
                   = set_wsRef None (set_isConnected false (set_sockets ∅ w10))).
    { unfold onclose. simpl.
      assert ((reconnectAttempts w10 <? 10) = false) as -> by (apply N.ltb_ge; lia).
      by rewrite andb_false_r. }
    split; [done |]. split; [lia |]. split; [done |].
    split; [by apply close_single with st |].
    rewrite Hoff. split.
    + by repeat split.
    + intros e. unfold step. simpl. rewrite Htm.
      destruct e; by rewrite lookup_empty.
Qed.

(** C5: a message whose [type] is [ping] and which carries a [timestamp] is
    answered, on the socket it came in on, by one frame
    [{type: 'pong', timestamp}] with that same timestamp. *)
Theorem C5_ping_pong w ws env message ts :
  sockets w !! ws = Some (env, Open) →
  get_prop message "type" = Some (JStr "ping") →
  get_prop message "timestamp" = Some ts →
  ts ≠ JUndefined →
  ∃ w', step decrypt (EvMessage ws (Some message)) w = Some w' ∧
        sent w' = sent w ++ [(ws, JObj [("type"%string, JStr "pong");
                                         ("timestamp"%string, ts)])].
Proof.
  intros Hs Hty Hts Hdef. unfold step. rewrite Hs.
  eexists. split; [reflexivity |].
  unfold onmessage. rewrite Hty. simpl. rewrite Hts. simpl.
  unfold stringify_obj. simpl. by destruct ts.
Qed.

End ClientFacts.

Lemma C2_backoff_delay_witness :
  (∃ wk ws w1 h,
    Client.fail_times ClientInv.no_decrypt 6 Client.HeartbeatTimeout ClientInv.demo_world = Some wk ∧
    Client.reconnectAttempts wk = 6 ∧
    Client.wsRef wk = Some ws ∧
    Client.step ClientInv.no_decrypt (Client.EvClose ws Client.HeartbeatTimeout) wk = Some w1 ∧
    Client.reconnectTimeoutRef w1 = Some h ∧
    Client.timers w1 !! h = Some (30000, ClientInv.demo_env)) ∧
  Client.fail_delays ClientInv.no_decrypt 7 Client.HeartbeatTimeout ClientInv.demo_world
  = [1000; 2000; 4000; 8000; 16000; 30000; 30000].
Proof.
  destruct (C2_backoff_delay ClientInv.no_decrypt) as [_ H].
  destruct (H ClientInv.demo_env ClientInv.demo_world Client.HeartbeatTimeout) as [Hk Hl].
  - apply demo_world_single.
  - reflexivity.
  - split; [| exact Hl]. apply (Hk 6%nat). lia.
Defined.

(** C3 as stated fails: the fresh provider's socket closes for an
    authentication failure, and a reconnect timer is set all the same. *)
Lemma C3_counterexample :
  ¬ (∀ cause w',
       Client.step ClientInv.no_decrypt (Client.EvClose 0%nat cause) ClientInv.demo_world = Some w' →
       (is_Some (Client.timers w' !! Client.nextHandle ClientInv.demo_world)
        ↔ cause ≠ Client.AuthenticationFailure)).
Proof.
  intros H.
  destruct (H Client.AuthenticationFailure _ eq_refl) as [H1 _].
  apply H1; [| reflexivity].
  eexists. reflexivity.
Qed.

Lemma C3_close_cause_ignored_witness :
  Client.step ClientInv.no_decrypt (Client.EvClose 0%nat Client.AuthenticationFailure) ClientInv.demo_world
  = Client.step ClientInv.no_decrypt (Client.EvClose 0%nat Client.NormalClosure) ClientInv.demo_world ∧
  ∃ w', Client.step ClientInv.no_decrypt (Client.EvClose 0%nat Client.AuthenticationFailure)
          ClientInv.demo_world = Some w' ∧
        Client.reconnectTimeoutRef w' = Some 1%nat ∧
        Client.timers w' = <[1%nat := (1000, ClientInv.demo_env)]> ∅.
Proof.
  destruct (C3_close_cause_ignored ClientInv.no_decrypt ClientInv.demo_world 0%nat
              ClientInv.demo_env Client.Connecting Client.AuthenticationFailure)
    as (Hsame & w' & Hstep & Hlow & _).
  - apply ClientInv.reach_mount, ClientInv.reach_initial.
  - reflexivity.
  - split; [exact Hsame |]. exists w'. split; [exact Hstep |]. apply Hlow.
    reflexivity.
Defined.

Lemma C4_reset_and_ceiling_witness :
  (∃ w', Client.step ClientInv.no_decrypt (Client.EvOpen 0%nat) ClientInv.demo_world = Some w' ∧
         Client.reconnectAttempts w' = 0 ∧ Client.isConnected w' = true) ∧
  (∃ w10 ws w',
     Client.fail_times ClientInv.no_decrypt 10 Client.ServerShutdown ClientInv.demo_world = Some w10 ∧
     Client.reconnectAttempts w10 = 10 ∧ Client.wsRef w10 = Some ws ∧
     Client.step ClientInv.no_decrypt (Client.EvClose ws Client.ServerShutdown) w10 = Some w' ∧
     Client.offline w' ∧ ∀ e, Client.step ClientInv.no_decrypt e w' = None).
Proof.
  destruct (C4_reset_and_ceiling ClientInv.no_decrypt) as (Hopen & _ & Hten).
  split.
  - apply (Hopen ClientInv.demo_world 0%nat ClientInv.demo_env). reflexivity.
  - apply (Hten ClientInv.demo_env ClientInv.demo_world Client.ServerShutdown).
    + apply demo_world_single.
    + reflexivity.
Defined.

Lemma C5_ping_pong_witness :
  ∃ w', Client.step ClientInv.no_decrypt (Client.EvMessage 0%nat (Some ClientInv.demo_ping))
          ClientInv.demo_open = Some w' ∧
        Client.sent w' = [(0%nat, JObj [("type"%string, JStr "pong");
                                         ("timestamp"%string, JStr "2025-11-25T10:35:00Z")])].
Proof.
  apply (C5_ping_pong ClientInv.no_decrypt ClientInv.demo_open 0%nat ClientInv.demo_env
           ClientInv.demo_ping (JStr "2025-11-25T10:35:00Z")).
  - reflexivity.
  - reflexivity.
  - reflexivity.
  - discriminate.
Defined.

(** ** Logout and the stored key *)

Section AuthFacts.
Import Auth.

(** C8: logout removes [access_token], [user_id] and [device_id] from the
    local storage and clears the auth state; every other entry, the
    [encryption_key] among them, is left as it was, so that the login that
    follows imports the key stored before instead of drawing a new one. *)
Theorem C8_logout_keeps_encryption_key (st : State) :
  let st' := logout st in
  (localStorage st' !! "access_token"%string = None ∧
   localStorage st' !! "user_id"%string = None ∧
   localStorage st' !! "device_id"%string = None) ∧
  (isAuthenticated st' = false ∧ user st' = None ∧ deviceId st' = None) ∧
  localStorage st' !! "encryption_key"%string = localStorage st !! "encryption_key"%string ∧
  (∀ k : string, k ≠ "access_token"%string → k ≠ "user_id"%string → k ≠ "device_id"%string →
     localStorage st' !! k = localStorage st !! k) ∧
  (∀ (Key : Type) (exportKey : Key → string) (importKey : string → option Key)
     (token uid dtoken did : string) (me : JsVal) (fresh : Key) (jwk : string),
     localStorage st !! "encryption_key"%string = Some jwk →
     truthy_str (Some jwk) = true →
     let r := login Key exportKey importKey token uid dtoken did me fresh st' in
     r.2 = importKey jwk ∧ localStorage r.1 !! "encryption_key"%string = Some jwk).
Proof.
  assert (Hframe : ∀ k : string, k ≠ "access_token"%string → k ≠ "user_id"%string →
            k ≠ "device_id"%string → localStorage (logout st) !! k = localStorage st !! k).
  { intros k H1 H2 H3. unfold logout. simpl. by rewrite !lookup_delete_ne. }
  cbv zeta. split; [| split; [| split; [| split]]].
  - unfold logout. simpl. repeat split.
    + rewrite lookup_delete_ne by done. rewrite lookup_delete_ne by done.
      apply lookup_delete_eq.
    + rewrite lookup_delete_ne by done. apply lookup_delete_eq.
    + apply lookup_delete_eq.
  - done.
  - by apply Hframe.
  - exact Hframe.
  - intros Key exportKey importKey token uid dtoken did me fresh jwk Hk Htr.
    assert (Hk' : localStorage (logout st) !! "encryption_key"%string = Some jwk).
    { rewrite Hframe; done. }
    unfold login, registerDevice, getKey. simpl.
    rewrite !lookup_insert_ne by done.
    unfold logout in Hk'. simpl in Hk'. rewrite Hk'. rewrite Htr.
    simpl. destruct (importKey jwk); simpl.
    + split; [done |]. by rewrite !lookup_insert_ne.
    + split; [done |]. by rewrite !lookup_insert_ne.
Qed.

End AuthFacts.

Lemma C8_logout_keeps_encryption_key_witness :
  let r := Auth.login string id Some "token-2" "user-1" "token-3" "device-2" JNull "jwk-fresh"
             (Auth.logout AuthInv.demo_state) in
  r.2 = Some "jwk-1"%string ∧
  Auth.localStorage r.1 !! "encryption_key"%string = Some "jwk-1"%string.
Proof.
  destruct (C8_logout_keeps_encryption_key AuthInv.demo_state) as (_ & _ & _ & _ & H).
  apply (H string id Some "token-2" "user-1" "token-3" "device-2" JNull "jwk-fresh" "jwk-1")%string.
  - reflexivity.
  - reflexivity.
Defined.

(** ** Base64 *)

Section Base64Facts.
Import Base64.

Example btoa_Man : btoa (of_ascii "Man") = Some (of_ascii "TWFu").
Proof. reflexivity. Qed.

Example btoa_Ma : btoa (of_ascii "Ma") = Some (of_ascii "TWE=").
Proof. reflexivity. Qed.

Example btoa_M : btoa (of_ascii "M") = Some (of_ascii "TQ==").
Proof. reflexivity. Qed.

Example btoa_wide : btoa [256] = None.
Proof. reflexivity. Qed.

Example atob_spaced : atob (of_ascii " T Q = =") = Some (of_ascii "M").
Proof. reflexivity. Qed.

Example atob_unpadded : atob (of_ascii "TWE") = Some (of_ascii "Ma").
Proof. reflexivity. Qed.

Example atob_bad_padding : atob (of_ascii "TQ=") = None.
Proof. reflexivity. Qed.

Example atob_bad_length : atob (of_ascii "TWFuT") = None.
Proof. reflexivity. Qed.

(** Induction over a list three elements at a time, as the encoder reads
    its input. *)
Lemma list_ind3 {A : Type} (P : list A → Prop) :
  P [] → (∀ a, P [a]) → (∀ a b, P [a; b]) →
  (∀ a b c l, P l → P (a :: b :: c :: l)) →
  ∀ l, P l.
Proof.
  intros H0 H1 H2 H3 l.
  enough (P l ∧ (∀ a, P (a :: l)) ∧ (∀ a b, P (a :: b :: l))) by tauto.
  induction l as [|x l (IH0 & IH1 & IH2)].
  - auto.
  - split; [apply IH1 |]. split; [intros; apply IH2 |]. intros a b. by apply H3.
Qed.

Lemma pack_div q r k : r < k → (q * k + r) / k = q.
Proof. intros H. symmetry. apply (N.div_unique _ k q r); lia. Qed.

Lemma pack_mod q r k : r < k → (q * k + r) mod k = r.
Proof. intros H. symmetry. apply (N.mod_unique _ k q r); lia. Qed.

Lemma split_at a k :
  0 < k → ∃ q r, a / k = q ∧ a mod k = r ∧ a = q * k + r ∧ r < k.
Proof.
  intros Hk. exists (a / k), (a mod k). split; [done |]. split; [done |]. split.
  - rewrite N.mul_comm. apply N.div_mod'.
  - apply N.mod_lt. lia.
Qed.

Lemma below_64 (P : N → bool) :
  forallb P (List.map N.of_nat (seq 0 64)) = true → ∀ s, s < 64 → P s = true.
Proof.
  intros H s Hs. rewrite forallb_forall in H. apply H.
  apply in_map_iff. exists (N.to_nat s). split; [lia |]. apply in_seq. lia.
Qed.

Lemma b64_val_char s : s < 64 → b64_val (b64_char s) = Some s.
Proof.
  intros Hs.
  pose proof (below_64
    (fun s => match b64_val (b64_char s) with Some v => v =? s | None => false end)
    eq_refl s Hs) as H.
  simpl in H. destruct (b64_val (b64_char s)); [| done].
  apply N.eqb_eq in H. by subst.
Qed.

Lemma b64_char_plain s :
  s < 64 → is_ascii_whitespace (b64_char s) = false ∧ (b64_char s =? pad) = false.
Proof.
  intros Hs.
  pose proof (below_64
    (fun s => negb (is_ascii_whitespace (b64_char s)) && negb (b64_char s =? pad))
    eq_refl s Hs) as H.
  simpl in H. apply andb_true_iff in H as [H1 H2].
  split; by apply negb_true_iff.
Qed.

(** The loop of [arrayBufferToBase64] builds the string of the bytes. *)
Lemma binary_of_buffer (buffer : list Byte.byte) (acc : JsString) :
  fold_left (fun acc b => acc ++ [fromCharCode b]) buffer acc
  = acc ++ List.map fromCharCode buffer.
Proof.
  revert acc. induction buffer as [|b bs IH]; intros acc; simpl.
  - by rewrite app_nil_r.
  - rewrite IH. by rewrite <- app_assoc.
Qed.

Lemma binary_bounded (buffer : list Byte.byte) :
  Forall (fun c => c < 256) (List.map fromCharCode buffer).
Proof.
  induction buffer as [|b bs IH]; simpl; constructor; [| done].
  unfold fromCharCode. pose proof (Byte.to_N_bounded b). lia.
Qed.

Lemma to_uint8_fromCharCode (b : Byte.byte) : to_uint8 (fromCharCode b) = b.
Proof.
  unfold to_uint8, fromCharCode. pose proof (Byte.to_N_bounded b).
  rewrite N.mod_small by lia. by rewrite Byte.of_to_N.
Qed.

Lemma sextets_bounded : ∀ bs,
  Forall (fun c => c < 256) bs → Forall (fun s => s < 64) (sextets bs).
Proof.
  induction bs as [| a | a b | a b c l IH] using list_ind3; intros H.
  - constructor.
  - inversion_clear H as [| ? ? Ha _]. cbn [sextets].
    destruct (split_at a 4) as (qa & ra & -> & -> & Ea & La); [lia |].
    repeat (apply List.Forall_cons; [cbv beta; lia |]). apply List.Forall_nil.
  - inversion_clear H as [| ? ? Ha H']. inversion_clear H' as [| ? ? Hb _].
    cbn [sextets].
    destruct (split_at a 4) as (qa & ra & -> & -> & Ea & La); [lia |].
    destruct (split_at b 16) as (qb & rb & -> & -> & Eb & Lb); [lia |].
    repeat (apply List.Forall_cons; [cbv beta; lia |]). apply List.Forall_nil.
  - inversion_clear H as [| ? ? Ha H']. inversion_clear H' as [| ? ? Hb H''].
    inversion_clear H'' as [| ? ? Hc Hl]. cbn [sextets].
    destruct (split_at a 4) as (qa & ra & -> & -> & Ea & La); [lia |].
    destruct (split_at b 16) as (qb & rb & -> & -> & Eb & Lb); [lia |].
    destruct (split_at c 64) as (qc & rc & -> & -> & Ec & Lc); [lia |].
    repeat (apply List.Forall_cons; [cbv beta; lia |]). by apply IH.
Qed.

(** Regrouping the sextets gives the bytes back. *)
Lemma bytes_of_sextets_sextets : ∀ bs,
  Forall (fun c => c < 256) bs → bytes_of_sextets (sextets bs) = bs.
Proof.
  induction bs as [| a | a b | a b c l IH] using list_ind3; intros H.
  - reflexivity.
  - inversion_clear H as [| ? ? Ha _]. cbn [sextets bytes_of_sextets].
    destruct (split_at a 4) as (qa & ra & -> & -> & Ea & La); [lia |].
    rewrite N.div_mul by lia. f_equal. lia.
  - inversion_clear H as [| ? ? Ha H']. inversion_clear H' as [| ? ? Hb _].
    cbn [sextets bytes_of_sextets].
    destruct (split_at a 4) as (qa & ra & -> & -> & Ea & La); [lia |].
    destruct (split_at b 16) as (qb & rb & -> & -> & Eb & Lb); [lia |].
    rewrite N.div_mul by lia. rewrite pack_div, pack_mod by lia.
    repeat f_equal; lia.
  - inversion_clear H as [| ? ? Ha H']. inversion_clear H' as [| ? ? Hb H''].
    inversion_clear H'' as [| ? ? Hc Hl]. cbn [sextets bytes_of_sextets].
    destruct (split_at a 4) as (qa & ra & -> & -> & Ea & La); [lia |].
    destruct (split_at b 16) as (qb & rb & -> & -> & Eb & Lb); [lia |].
    destruct (split_at c 64) as (qc & rc & -> & -> & Ec & Lc); [lia |].
    rewrite !pack_div, !pack_mod by lia. rewrite (IH Hl).
    repeat f_equal; lia.
Qed.

Lemma padding_step n : padding (S (S (S n))) = padding n.
Proof.
  unfold padding. replace (S (S (S n))) with (n + 1 * 3)%nat by lia.
  by rewrite Nat.Div0.mod_add.
Qed.

(** The number of sextets modulo 4, and the padding that goes with it. *)
Lemma sextets_shape : ∀ bs : list N,
  ∃ k r : nat,
    length (sextets bs) = (r + k * 4)%nat ∧
    ((r = 0%nat ∧ padding (length bs) = []) ∨
     (r = 2%nat ∧ padding (length bs) = [pad; pad]) ∨
     (r = 3%nat ∧ padding (length bs) = [pad])).
Proof.
  induction bs as [| a | a b | a b c l (k & r & Hl & Hp)] using list_ind3.
  - exists 0%nat, 0%nat. auto.
  - exists 0%nat, 2%nat. auto.
  - exists 0%nat, 3%nat. auto.
  - exists (S k), r. cbn [sextets length]. rewrite padding_step. split; [lia | done].
Qed.

Lemma filter_all {A} (f : A → bool) (l : list A) :
  List.Forall (fun x => f x = true) l → List.filter f l = l.
Proof.
  induction 1 as [| x l Hx _ IH]; simpl; [done |]. by rewrite Hx, IH.
Qed.

Lemma strip_padding_encoded (l p : list N) :
  List.Forall (fun c => (c =? pad) = false) l →
  p = [] ∨ p = [pad] ∨ p = [pad; pad] →
  strip_padding (l ++ p) = l.
Proof.
  intros Hl Hp.
  assert (Hhead : ∀ e r, rev l = e :: r → (e =? pad) = false).
  { intros e r E. rewrite List.Forall_forall in Hl. apply Hl.
    apply in_rev. rewrite E. by left. }
  unfold strip_padding. destruct Hp as [-> | [-> | ->]].
  - rewrite app_nil_r. destruct (rev l) as [| e1 [| e2 r]] eqn:E; [done | |].
    + by rewrite (Hhead _ _ eq_refl).
    + by rewrite (Hhead _ _ eq_refl).
  - rewrite rev_app_distr. change (rev [pad]) with [pad]. cbn [app].
    destruct (rev l) as [| e2 r] eqn:E.
    + rewrite N.eqb_refl. rewrite <- (rev_involutive l), E. done.
    + rewrite N.eqb_refl, (Hhead _ _ eq_refl). by rewrite <- E, rev_involutive.
  - rewrite rev_app_distr. change (rev [pad; pad]) with [pad; pad]. cbn [app].
    rewrite N.eqb_refl. apply rev_involutive.
Qed.

Lemma mapM_b64_val (sx : list N) :
  List.Forall (fun s => s < 64) sx → mapM b64_val (List.map b64_char sx) = Some sx.
Proof.
  induction 1 as [| x l Hx _ IH]; [done |].
  cbn [List.map mapM]. rewrite (b64_val_char x Hx). simpl. rewrite IH. done.
Qed.

(** [atob] undoes [btoa] on a string of bytes. *)
Lemma atob_btoa (s : JsString) :
  Forall (fun c => c < 256) s →
  ∃ e, btoa s = Some e ∧ atob e = Some s.
Proof.
  intros Hs.
  assert (Hs' : List.Forall (fun c => c < 256) s) by done.
  exists (List.map b64_char (sextets s) ++ padding (length s)). split.
  - unfold btoa.
    assert (forallb (fun c => c <=? 255) s = true) as ->; [| done].
    apply forallb_forall. intros c Hc. rewrite List.Forall_forall in Hs'.
    apply N.leb_le. specialize (Hs' c Hc). simpl in Hs'. lia.
  - pose proof (sextets_bounded s Hs) as Hb.
    assert (Hb' : List.Forall (fun s => s < 64) (sextets s)) by done.
    assert (Hplain : List.Forall (fun c => (c =? pad) = false) (List.map b64_char (sextets s))).
    { apply List.Forall_forall. intros c Hc. apply in_map_iff in Hc as (x & <- & Hx).
      rewrite List.Forall_forall in Hb'. by apply b64_char_plain, Hb'. }
    assert (Hpad : padding (length s) = [] ∨ padding (length s) = [pad]
                   ∨ padding (length s) = [pad; pad]).
    { destruct (sextets_shape s) as (k & r & _ & [[_ H] | [[_ H] | [_ H]]]); auto. }
    destruct (sextets_shape s) as (k & r & Hlen & Hr).
    unfold atob.
    rewrite filter_all; cycle 1.
    { apply List.Forall_app. split.
      - apply List.Forall_forall. intros c Hc. apply in_map_iff in Hc as (x & <- & Hx).
        rewrite List.Forall_forall in Hb'.
        destruct (b64_char_plain x (Hb' x Hx)) as [-> _]. done.
      - destruct Hpad as [-> | [-> | ->]]; repeat constructor. }
    assert (Hl4 : (length (List.map b64_char (sextets s) ++ padding (length s)) mod 4 =? 0)%nat
                  = true).
    { apply Nat.eqb_eq. rewrite length_app, length_map, Hlen.
      destruct Hr as [[-> ->] | [[-> ->] | [-> ->]]]; simpl length.
      - rewrite Nat.add_0_r, Nat.add_0_l. apply Nat.Div0.mod_mul.
      - replace (2 + k * 4 + 2)%nat with (S k * 4)%nat by lia. apply Nat.Div0.mod_mul.
      - replace (3 + k * 4 + 1)%nat with (S k * 4)%nat by lia. apply Nat.Div0.mod_mul. }
    rewrite Hl4. rewrite (strip_padding_encoded _ _ Hplain Hpad).
    assert (Hl1 : (length (List.map b64_char (sextets s)) mod 4 =? 1)%nat = false).
    { apply Nat.eqb_neq. rewrite length_map, Hlen, Nat.Div0.mod_add.
      destruct Hr as [[-> _] | [[-> _] | [-> _]]]; simpl; lia. }
    rewrite Hl1, (mapM_b64_val _ Hb'). simpl.
    by rewrite (bytes_of_sextets_sextets s Hs).
Qed.

(** C9: decoding the Base64 text of a buffer gives the buffer back:
    [arrayBufferToBase64] returns a string on every buffer, and
    [base64ToArrayBuffer] of that string is a buffer with the same bytes. *)
Theorem C9_base64_roundtrip (buffer : list Byte.byte) :
  ∃ text, arrayBufferToBase64 buffer = Some text ∧
          base64ToArrayBuffer text = Some buffer.
Proof.
  unfold arrayBufferToBase64. rewrite binary_of_buffer, app_nil_l.
  destruct (atob_btoa (List.map fromCharCode buffer) (binary_bounded buffer))
    as (e & He & Hd).
  exists e. split; [done |].
  unfold base64ToArrayBuffer. rewrite Hd. simpl. f_equal.
  rewrite List.map_map. rewrite <- (List.map_id buffer) at 2.
  apply List.map_ext. apply to_uint8_fromCharCode.
Qed.

End Base64Facts.

(** ** The cleanup trigger *)

Section DbFacts.
Import Db.

Example demo_insert_drops_oldest :
  List.map id (items_of 7 DbInv.demo_after) = List.map N.of_nat (seq 2 20) ∧
  List.map id (items_of 8 DbInv.demo_after) = [100; 101].
Proof. split; reflexivity. Qed.

(** A row inserted with a [created_at] older than the twenty kept is
    itself the one deleted. *)
Example demo_insert_stale :
  (t ← insert sort_desc (mkRow 22 7 (Some 0%Z)) DbInv.demo_after;
   Some (List.map id (items_of 7 t)))
  = Some (List.map N.of_nat (seq 2 20)).
Proof. reflexivity. Qed.

Lemma desc_le_total a b : desc_le a b = true ∨ desc_le b a = true.
Proof.
  unfold desc_le. destruct (created_at a), (created_at b); auto.
  destruct (Z.leb_spec z0 z), (Z.leb_spec z z0); auto; lia.
Qed.

Lemma desc_le_trans a b c : desc_le a b = true → desc_le b c = true → desc_le a c = true.
Proof.
  unfold desc_le. destruct (created_at a), (created_at b), (created_at c); try done.
  rewrite !Z.leb_le. lia.
Qed.

Lemma insert_desc_perm r l : Permutation (insert_desc r l) (r :: l).
Proof.
  induction l as [| x l IH]; simpl; [done |].
  destruct (desc_le x r); [| done].
  rewrite IH. apply perm_swap.
Qed.

Lemma sort_desc_perm l : Permutation (sort_desc l) l.
Proof.
  induction l as [| r l IH]; simpl; [done |].
  rewrite insert_desc_perm. by constructor.
Qed.

Lemma insert_desc_sorted r l :
  StronglySorted (fun a b => desc_le a b = true) l →
  StronglySorted (fun a b => desc_le a b = true) (insert_desc r l).
Proof.
  induction 1 as [| x l Hs IH Hx]; simpl.
  - repeat constructor.
  - destruct (desc_le x r) eqn:E.
    + constructor; [done |].
      rewrite List.Forall_forall in *. intros y Hy.
      apply (Permutation_in _ (insert_desc_perm r l)) in Hy as [<- | Hy]; auto.
    + destruct (desc_le_total x r) as [H | H]; [congruence |].
      constructor; [by constructor |].
      constructor; [done |].
      rewrite List.Forall_forall in *. intros y Hy. eapply desc_le_trans; eauto.
Qed.

Lemma sort_desc_sorted l : StronglySorted (fun a b => desc_le a b = true) (sort_desc l).
Proof.
  induction l as [| r l IH]; simpl; [constructor |]. by apply insert_desc_sorted.
Qed.

Lemma NoDup_map_filter {A B} (f : A → B) (p : A → bool) (l : list A) :
  List.NoDup (List.map f l) → List.NoDup (List.map f (List.filter p l)).
Proof.
  induction l as [| x l IH]; simpl; [done |].
  intros H. inversion_clear H as [| ? ? Hx Hl].
  destruct (p x); simpl; [| by apply IH].
  apply List.NoDup_cons; [| by apply IH].
  intros Hin. apply Hx. apply in_map_iff in Hin as (y & Hy & Hin).
  apply in_map_iff. exists y. split; [done |]. by apply filter_In in Hin as [? _].
Qed.

Lemma NoDup_map_inj_in {A B} (f : A → B) (l : list A) x y :
  List.NoDup (List.map f l) → In x l → In y l → f x = f y → x = y.
Proof.
  induction l as [| z l IH]; simpl; [done |].
  intros H. inversion_clear H as [| ? ? Hz Hl].
  intros [-> | Hx] [-> | Hy] E; auto.
  - exfalso. apply Hz. rewrite E. by apply in_map.
  - exfalso. apply Hz. rewrite <- E. by apply in_map.
Qed.

Lemma sorted_app_le {A} (R : A → A → Prop) (l1 l2 : list A) :
  StronglySorted R (l1 ++ l2) → ∀ x y, In x l1 → In y l2 → R x y.
Proof.
  induction l1 as [| a l1 IH]; simpl; [done |].
  intros H x y [-> | Hx] Hy.
  - inversion_clear H as [| ? ? _ Hall]. rewrite List.Forall_forall in Hall.
    apply Hall, in_or_app. by right.
  - inversion_clear H as [| ? ? Hs _]. by apply IH.
Qed.

Lemma firstn_In {A} (n : nat) (l : list A) x : In x (firstn n l) → In x l.
Proof.
  intros H. rewrite <- (firstn_skipn n l). apply in_or_app. by left.
Qed.

Lemma in_items_of u t r : In r (items_of u t) ↔ In r t ∧ user_id r = u.
Proof.
  unfold items_of. rewrite filter_In, N.eqb_eq. done.
Qed.

Lemma items_of_filter u (p : Row → bool) (t : list Row) :
  (∀ x, user_id x = u → p x = true) →
  items_of u (List.filter p t) = items_of u t.
Proof.
  intros Hp. unfold items_of. induction t as [| x t IH]; simpl; [done |].
  destruct (user_id x =? u) eqn:E.
  - apply N.eqb_eq in E. rewrite (Hp x E). simpl.
    assert ((user_id x =? u) = true) as -> by by apply N.eqb_eq.
    by f_equal.
  - destruct (p x); simpl; [by rewrite E |]. done.
Qed.

Section Cleanup.

(** Any ordering the engine may produce for [ORDER BY created_at DESC]:
    a rearrangement of the rows in which no row stands before a more
    recent one. *)
Variable order : list Row → list Row.
Hypothesis order_perm : ∀ l, Permutation (order l) l.
Hypothesis order_sorted : ∀ l, StronglySorted (fun a b => desc_le a b = true) (order l).

(** After the trigger has run for [new], the rows of that user are the
    first twenty rows of the ordering. *)
Lemma cleanup_keeps_first (new : Row) (t1 : list Row) (r : Row) :
  List.NoDup (List.map id t1) →
  In r (items_of (user_id new) (cleanup_old_clipboard_items order new t1))
  ↔ In r (firstn 20 (order (items_of (user_id new) t1))).
Proof.
  intros Hnd. set (u := user_id new).
  set (L := order (items_of u t1)).
  assert (HL : ∀ x, In x L ↔ In x t1 ∧ user_id x = u).
  { intros x. rewrite <- in_items_of. split; intros H.
    - by apply (Permutation_in _ (order_perm _)).
    - by apply (Permutation_in _ (Permutation_sym (order_perm _))). }
  rewrite in_items_of. unfold cleanup_old_clipboard_items, most_recent_ids.
  fold u. fold (items_of u t1). fold L. rewrite filter_In. split.
  - intros [[Hin Hp] Hu]. rewrite Hu, N.eqb_refl in Hp. simpl in Hp.
    apply negb_true_iff, negb_false_iff in Hp.
    apply existsb_exists in Hp as (i & Hi & Heq). apply N.eqb_eq in Heq. subst i.
    apply in_map_iff in Hi as (r' & Hid & Hr').
    assert (r' = r) as <-; [| done].
    apply (NoDup_map_inj_in id t1); try done.
    apply firstn_In, HL in Hr'. by destruct Hr'.
  - intros Hr. pose proof (firstn_In _ _ _ Hr) as Hr'. apply HL in Hr' as [Hin Hu].
    split; [| done]. split; [done |].
    rewrite Hu, N.eqb_refl. simpl. apply negb_true_iff, negb_false_iff.
    apply existsb_exists. exists (id r). split; [| apply N.eqb_refl].
    by apply in_map.
Qed.

Lemma cleanup_other_users (new : Row) (t1 : list Row) (u' : N) :
  u' ≠ user_id new →
  items_of u' (cleanup_old_clipboard_items order new t1) = items_of u' t1.
Proof.
  intros Hne. unfold cleanup_old_clipboard_items. apply items_of_filter.
  intros x <-.
  assert ((user_id x =? user_id new) = false) as -> by by apply N.eqb_neq.
  done.
Qed.

Lemma insert_accepted (new : Row) (t t' : list Row) :
  List.NoDup (List.map id t) → insert order new t = Some t' →
  t' = cleanup_old_clipboard_items order new (t ++ [new]) ∧
  List.NoDup (List.map id (t ++ [new])).
Proof.
  unfold insert. intros Hnd H.
  destruct (existsb (fun r => id r =? id new) t) eqn:E; [done |].
  split; [congruence |].
  rewrite List.map_app. apply List.NoDup_app; [done | repeat constructor; by intros [] |].
  intros i Hi [<- | []]. apply in_map_iff in Hi as (r & Hid & Hr).
  assert (existsb (fun r => id r =? id new) t = true); [| congruence].
  apply existsb_exists. exists r. split; [done |]. by apply N.eqb_eq.
Qed.

Lemma items_of_delete_length u i (t : list Row) :
  (length (items_of u (delete_item i t)) ≤ length (items_of u t))%nat.
Proof.
  unfold items_of, delete_item. induction t as [| x t IH]; simpl; [done |].
  destruct (negb (id x =? i)); simpl; destruct (user_id x =? u); simpl; lia.
Qed.

(** C10: an accepted insert leaves, for the user of the new row, the first
    twenty rows of the [ORDER BY created_at DESC] ordering of that user's
    rows (the new one included) and deletes the others: at most twenty
    rows remain, each of them at least as recent as every row deleted, and
    the rows of other users are untouched. Hence, from the empty table and
    through any run of inserts and deletes, no user ever has more than
    twenty rows. *)
Theorem C10_cleanup_keeps_20_most_recent :
  (∀ (t : list Row) (new : Row) (t' : list Row),
     List.NoDup (List.map id t) → insert order new t = Some t' →
     Permutation (items_of (user_id new) t')
                 (firstn 20 (order (items_of (user_id new) (t ++ [new])))) ∧
     (length (items_of (user_id new) t') ≤ 20)%nat ∧
     (∀ r d, In r (items_of (user_id new) t') →
             In d (items_of (user_id new) (t ++ [new])) → ¬ In d t' →
             desc_le r d = true) ∧
     (∀ u', u' ≠ user_id new → items_of u' t' = items_of u' t) ∧
     List.NoDup (List.map id t')) ∧
  (∀ (ss : list Stmt) (u : N), (length (items_of u (exec order ss [])) ≤ 20)%nat).
Proof.
  assert (Hins : ∀ (t : list Row) (new : Row) (t' : list Row),
     List.NoDup (List.map id t) → insert order new t = Some t' →
     Permutation (items_of (user_id new) t')
                 (firstn 20 (order (items_of (user_id new) (t ++ [new])))) ∧
     (length (items_of (user_id new) t') ≤ 20)%nat ∧
     (∀ r d, In r (items_of (user_id new) t') →
             In d (items_of (user_id new) (t ++ [new])) → ¬ In d t' →
             desc_le r d = true) ∧
     (∀ u', u' ≠ user_id new → items_of u' t' = items_of u' t) ∧
     List.NoDup (List.map id t')).
  { intros t new t' Hnd Hi.
    destruct (insert_accepted new t t' Hnd Hi) as [-> Hnd1].
    set (u := user_id new). set (t1 := t ++ [new]) in *.
    set (L := order (items_of u t1)).
    pose proof (cleanup_keeps_first new t1) as Hmem. fold u L in Hmem.
    assert (Hnd' : List.NoDup (List.map id (cleanup_old_clipboard_items order new t1))).
    { unfold cleanup_old_clipboard_items. by apply NoDup_map_filter. }
    assert (HndL : List.NoDup L).
    { apply (Permutation.Permutation_NoDup (Permutation_sym (order_perm _))).
      apply (List.NoDup_map_inv id). unfold items_of. by apply NoDup_map_filter. }
    assert (Hperm : Permutation (items_of u (cleanup_old_clipboard_items order new t1))
                                (firstn 20 L)).
    { apply Permutation.NoDup_Permutation.
      - apply (List.NoDup_map_inv id). unfold items_of. by apply NoDup_map_filter.
      - rewrite <- (firstn_skipn 20 L) in HndL. by apply List.NoDup_app_remove_r in HndL.
      - intros x. by apply Hmem. }
    split; [done |]. split; [| split; [| split; [| done]]].
    - rewrite (Permutation_length Hperm). apply List.firstn_le_length.
    - intros r d Hr Hd Hnot.
      apply (Hmem r Hnd1) in Hr.
      assert (Hd' : In d (skipn 20 L)).
      { assert (HdL : In d L).
        { by apply (Permutation_in _ (Permutation_sym (order_perm _))). }
        rewrite <- (firstn_skipn 20 L) in HdL. apply in_app_or in HdL as [HdL | HdL]; [| done].
        exfalso. apply Hnot. apply (Hmem d Hnd1) in HdL. by apply in_items_of in HdL as [? _]. }
      apply (sorted_app_le (fun a b => desc_le a b = true) (firstn 20 L) (skipn 20 L)); try done.
      rewrite firstn_skipn. apply order_sorted.
    - intros u' Hne. rewrite cleanup_other_users by done.
      unfold items_of, t1. rewrite List.filter_app. simpl.
      assert ((user_id new =? u') = false) as ->.
      { apply N.eqb_neq. intros Heq. apply Hne. symmetry. exact Heq. }
      by rewrite app_nil_r. }
  split; [exact Hins |].
  assert (Hinv : ∀ ss t,
            List.NoDup (List.map id t) ∧ (∀ u, (length (items_of u t) ≤ 20)%nat) →
            ∀ u, (length (items_of u (exec order ss t)) ≤ 20)%nat).
  { induction ss as [| [new | i] ss IH]; intros t [Hnd Hlen]; simpl.
    - done.
    - apply IH. destruct (insert order new t) as [t' |] eqn:E; simpl; [| done].
      destruct (Hins t new t' Hnd E) as (_ & Hle & _ & Hother & Hnd').
      split; [done |]. intros u. destruct (N.eq_dec u (user_id new)) as [-> | Hne]; [done |].
      rewrite Hother by done. apply Hlen.
    - apply IH. split.
      + unfold delete_item. by apply NoDup_map_filter.
      + intros u. etrans; [apply items_of_delete_length | apply Hlen]. }
  intros ss u. apply Hinv. split; [constructor |]. intros u'. simpl. lia.
Qed.

End Cleanup.

End DbFacts.

(** ** The server-side contracts *)

Section ServerFacts.
Import Server.

(** *** Deduplicator *)

Lemma shouldAccept_accepted (horizon : Z) (user fp : string) (now : Z)
    (fw : gmap (string * string) Z) :
  (shouldAccept horizon user fp now fw).1 = true →
  (shouldAccept horizon user fp now fw).2 = <[(user, fp) := now]> fw.
Proof.
  unfold shouldAccept. destruct (fw !! (user, fp)) as [seen |]; [| done].
  by case_bool_decide.
Qed.

Lemma shouldAccept_other (horizon : Z) (user fp : string) (now : Z)
    (fw : gmap (string * string) Z) (key : string * string) :
  key ≠ (user, fp) → (shouldAccept horizon user fp now fw).2 !! key = fw !! key.
Proof.
  intros Hne. unfold shouldAccept.
  destruct (fw !! (user, fp)) as [seen |]; [case_bool_decide |]; simpl;
    by rewrite ?lookup_insert_ne.
Qed.

Lemma calls_other (horizon : Z) (cs : list (string * string * Z)) (key : string * string) :
  ∀ fw : gmap (string * string) Z,
  Forall (fun c => c.1 ≠ key) cs → calls horizon cs fw !! key = fw !! key.
Proof.
  unfold calls. induction cs as [| [[u f] t] cs IH]; intros fw H; simpl; [done |].
  inversion_clear H as [| ? ? Hc Hcs]. rewrite IH by done.
  apply shouldAccept_other. simpl in Hc. congruence.
Qed.

(** C1: after a write with fingerprint [fp] of [user] has been accepted at
    [T], and whatever calls for other keys come in between, a call for
    the same key at [T'] is rejected, the window unchanged, when
    [T' - T] is below the horizon, and accepted, [T'] recorded, when
    [T' - T] is at least the horizon. *)
Theorem C1_dedup_window (horizon : Z) (user fp : string) (T T' : Z)
    (between : list (string * string * Z)) (fw : gmap (string * string) Z) :
  (shouldAccept horizon user fp T fw).1 = true →
  Forall (fun c => c.1 ≠ (user, fp)) between →
  let fw1 := calls horizon between (shouldAccept horizon user fp T fw).2 in
  ((T' - T < horizon)%Z → shouldAccept horizon user fp T' fw1 = (false, fw1)) ∧
  ((horizon ≤ T' - T)%Z →
     shouldAccept horizon user fp T' fw1 = (true, <[(user, fp) := T']> fw1)).
Proof.
  intros Hacc Hbetween fw1.
  assert (Hseen : fw1 !! (user, fp) = Some T).
  { unfold fw1. rewrite calls_other by done.
    rewrite shouldAccept_accepted by done. apply lookup_insert_eq. }
  unfold shouldAccept. rewrite Hseen. split; intros H; case_bool_decide; done || lia.
Qed.

(** *** Registry *)

Lemma keyed_register (user : string) (c : DeviceConnection) (reg : Registry) : keyed reg → keyed (register user c reg).1.
Proof.
  intros Hk u m d c'. unfold register. simpl.
  destruct (decide (user = u)) as [<- | Hne].
  - rewrite lookup_insert_eq. intros [= <-].
    destruct (decide (device c = d)) as [<- | Hd].
    + rewrite lookup_insert_eq. by intros [= <-].
    + rewrite lookup_insert_ne by done. unfold devices_of.
      destruct (reg !! user) as [m |] eqn:E; simpl; [by apply (Hk user) | done].
  - rewrite lookup_insert_ne by done. apply Hk.
Qed.

Lemma register_lookup (user : string) (c : DeviceConnection) (reg : Registry) :
  devices_of user (register user c reg).1 !! device c = Some c.
Proof.
  unfold register, devices_of. simpl. rewrite lookup_insert_eq. simpl.
  apply lookup_insert_eq.
Qed.

(** The device ids of a snapshot are the keys of the user's entry. *)
Lemma listLive_devices (user : string) (reg : Registry) :
  keyed reg →
  List.map device (listLive user reg) = (map_to_list (devices_of user reg)).*1.
Proof.
  intros Hk. unfold listLive.
  assert (H : Forall (fun kc => device kc.2 = kc.1) (map_to_list (devices_of user reg))).
  { apply Forall_forall. intros [k c] Hin. apply elem_of_map_to_list in Hin.
    unfold devices_of in Hin. destruct (reg !! user) as [m |] eqn:E; simpl in *.
    - by apply (Hk user m).
    - done. }
  induction H as [| [k c] l Hkc _ IH]; [done |].
  cbn. simpl in Hkc. by rewrite Hkc, IH.
Qed.

Lemma listLive_devices_NoDup (user : string) (reg : Registry) :
  keyed reg → List.NoDup (List.map device (listLive user reg)).
Proof.
  intros Hk. rewrite listLive_devices by done.
  apply NoDup_ListNoDup, NoDup_fst_map_to_list.
Qed.

Lemma listLive_devices_In (user : string) (reg : Registry) (d : string) :
  keyed reg →
  In d (List.map device (listLive user reg)) ↔ is_Some (devices_of user reg !! d).
Proof.
  intros Hk. rewrite listLive_devices by done.
  rewrite <- list_elem_of_In, list_elem_of_fmap. split.
  - intros ([k c] & -> & Hin). apply elem_of_map_to_list in Hin. by exists c.
  - intros [c Hc]. exists (d, c). split; [done |]. by apply elem_of_map_to_list.
Qed.

Lemma keyed_register_all (user : string) (cs : list DeviceConnection) :
  ∀ st : Registry * list nat, keyed st.1 → keyed (register_all user cs st).1.
Proof.
  unfold register_all. induction cs as [| c cs IH]; intros st Hk; simpl; [done |].
  apply IH. unfold lifecycle_register.
  destruct (register user c st.1) as [reg' replaced] eqn:E. simpl.
  change reg' with (reg', replaced).1. rewrite <- E. by apply keyed_register.
Qed.

Lemma register_all_cons (user : string) (c : DeviceConnection)
    (cs : list DeviceConnection) (reg : Registry) (closed : list nat) :
  register_all user (c :: cs) (reg, closed)
  = register_all user cs
      ((register user c reg).1,
       closed ++ option_list (transport <$> devices_of user reg !! device c)).
Proof. reflexivity. Qed.

(** What a run of registrations under one key leaves: the last connection
    is the one registered, and the transports closed are, in order, those
    of all connections before it. *)
Lemma register_all_same_key (user d : string) (cs : list DeviceConnection) :
  ∀ (reg : Registry) (closed : list nat),
  Forall (fun c => device c = d) cs →
  devices_of user (register_all user cs (reg, closed)).1 !! d
  = last (option_list (devices_of user reg !! d) ++ cs) ∧
  (register_all user cs (reg, closed)).2
  = closed ++ List.map transport
                (removelast (option_list (devices_of user reg !! d) ++ cs)).
Proof.
  induction cs as [| c cs IH]; intros reg closed Hd.
  - unfold register_all. simpl. rewrite !app_nil_r.
    destruct (devices_of user reg !! d); simpl; by rewrite app_nil_r.
  - inversion_clear Hd as [| ? ? Hc Hcs]. subst d.
    rewrite register_all_cons.
    destruct (IH (register user c reg).1
                 (closed ++ option_list (transport <$> devices_of user reg !! device c)) Hcs)
      as [IH1 IH2].
    rewrite IH1, IH2, register_lookup. simpl. split.
    + by rewrite last_app_cons.
    + rewrite List.removelast_app by done. rewrite List.map_app, <- app_assoc.
      f_equal. f_equal. by destruct (devices_of user reg !! device c).
Qed.

(** C6: over any run of [register] calls under one (user, device id), the
    registry holds at most one entry for that key, namely the connection
    registered last; the transports closed are those of the connections
    registered before it, each closed once and the last one not at all,
    transports being distinct handles. *)
Theorem C6_register_single_entry (user d : string) (cs : list DeviceConnection)
    (reg : Registry) :
  keyed reg →
  Forall (fun c => device c = d) cs →
  let before := option_list (devices_of user reg !! d) in
  let st := register_all user cs (reg, []) in
  (count_occ String.string_dec (List.map device (listLive user st.1)) d ≤ 1)%nat ∧
  devices_of user st.1 !! d = last (before ++ cs) ∧
  st.2 = List.map transport (removelast (before ++ cs)) ∧
  (List.NoDup (List.map transport (before ++ cs)) →
     (∀ c, In c (removelast (before ++ cs)) →
           count_occ Nat.eq_dec st.2 (transport c) = 1%nat) ∧
     (∀ c, last (before ++ cs) = Some c →
           count_occ Nat.eq_dec st.2 (transport c) = 0%nat)).
Proof.
  intros Hk Hd before st.
  destruct (register_all_same_key user d cs reg [] Hd) as [Hlast Hclosed].
  fold before in Hlast, Hclosed. fold st in Hlast, Hclosed. simpl in Hclosed.
  split; [| split; [done | split; [done |]]].
  - apply List.NoDup_count_occ. apply listLive_devices_NoDup.
    by apply (keyed_register_all user cs (reg, [])).
  - intros Hnd. rewrite Hclosed.
    destruct (last (before ++ cs)) as [c0 |] eqn:El.
    + apply last_Some in El as [l' El]. rewrite El in *.
      rewrite List.removelast_last.
      rewrite List.map_app in Hnd. split.
      * intros c Hc. apply List.NoDup_count_occ'.
        -- by apply List.NoDup_app_remove_r in Hnd.
        -- by apply in_map.
      * intros c [= <-]. apply List.count_occ_not_In.
        intros Hin. apply List.NoDup_remove_2 in Hnd. apply Hnd.
        rewrite app_nil_r. exact Hin.
    + apply last_None in El. rewrite El. simpl. split; [by intros c [] | done].
Qed.

(** *** Dispatcher *)

Section Publish.

Variable Event : Type.
Variable send : DeviceConnection → Event → bool.

Lemma deliver_all_everyone (snapshot : list DeviceConnection) (event : Event) :
  deliver_all Event send snapshot event None
  = List.map (fun c => (c, send c event)) snapshot.
Proof.
  induction snapshot as [| c l IH]; simpl; [done |]. by rewrite IH.
Qed.

(** C7: [publish(U, event)], with no origin excluded, makes its delivery
    attempts on the snapshot [listLive] gives at the call, one per
    connection and in its order, each with the outcome of its own send:
    every device of the user's live set is attempted exactly once, and a
    device that is not in the set at the call, such as one registered
    afterwards, is not attempted. *)
Theorem C7_publish_once_per_live_device (user : string) (event : Event) (reg : Registry) :
  keyed reg →
  let attempts := publish Event send user event None reg in
  attempts = List.map (fun c => (c, send c event)) (listLive user reg) ∧
  (∀ d, is_Some (devices_of user reg !! d) →
        count_occ String.string_dec (List.map (fun a => device a.1) attempts) d = 1%nat) ∧
  (∀ d, devices_of user reg !! d = None →
        count_occ String.string_dec (List.map (fun a => device a.1) attempts) d = 0%nat) ∧
  (∀ c, devices_of user reg !! device c = None →
        is_Some (devices_of user (register user c reg).1 !! device c) ∧
        count_occ String.string_dec (List.map (fun a => device a.1) attempts) (device c)
        = 0%nat).
Proof.
  intros Hk attempts.
  assert (Hatt : attempts = List.map (fun c => (c, send c event)) (listLive user reg)).
  { unfold attempts, publish. apply deliver_all_everyone. }
  assert (Hdev : List.map (fun a => device a.1) attempts
                 = List.map device (listLive user reg)).
  { rewrite Hatt, List.map_map. done. }
  assert (Hnone : ∀ d, devices_of user reg !! d = None →
            count_occ String.string_dec (List.map (fun a => device a.1) attempts) d = 0%nat).
  { intros d Hd. rewrite Hdev. apply List.count_occ_not_In.
    rewrite listLive_devices_In by done. rewrite Hd. by intros [? ?]. }
  split; [done |]. split; [| split; [done |]].
  - intros d Hd. rewrite Hdev. apply List.NoDup_count_occ'.
    + by apply listLive_devices_NoDup.
    + by apply listLive_devices_In.
  - intros c Hc. split; [| by apply Hnone].
    rewrite register_lookup. by eexists.
Qed.

End Publish.

End ServerFacts.

(** ** The statements at concrete inputs *)

Lemma keyed_empty : Server.keyed ∅.
Proof. intros u m d c H. by rewrite lookup_empty in H. Qed.

Lemma C1_dedup_window_witness :
  let fw1 := Server.calls Server.default_horizon
               [("u2", "h1", 103%Z); ("u1", "h2", 105%Z)]
               (Server.shouldAccept Server.default_horizon "u1" "h1" 100 ∅).2 in
  Server.shouldAccept Server.default_horizon "u1" "h1" 110 fw1 = (false, fw1) ∧
  Server.shouldAccept Server.default_horizon "u1" "h1" 160 fw1
  = (true, <[("u1", "h1") := 160%Z]> fw1).
Proof.
  split.
  - apply (C1_dedup_window Server.default_horizon "u1" "h1" 100 110
             [("u2", "h1", 103%Z); ("u1", "h2", 105%Z)] ∅)%string.
    + reflexivity.
    + repeat constructor; discriminate.
    + unfold Server.default_horizon. lia.
  - apply (C1_dedup_window Server.default_horizon "u1" "h1" 100 160
             [("u2", "h1", 103%Z); ("u1", "h2", 105%Z)] ∅)%string.
    + reflexivity.
    + repeat constructor; discriminate.
    + unfold Server.default_horizon. lia.
Defined.

Lemma C6_register_single_entry_witness :
  let st := Server.register_all "u1" ServerInv.demo_reconnects (∅, []) in
  (count_occ String.string_dec
     (List.map Server.device (Server.listLive "u1" st.1)) "A" ≤ 1)%nat ∧
  Server.devices_of "u1" st.1 !! "A"%string = Some (ServerInv.conn "A" 3 30) ∧
  st.2 = [1; 2]%nat ∧
  count_occ Nat.eq_dec st.2 1%nat = 1%nat ∧
  count_occ Nat.eq_dec st.2 2%nat = 1%nat ∧
  count_occ Nat.eq_dec st.2 3%nat = 0%nat.
Proof.
  destruct (C6_register_single_entry "u1" "A" ServerInv.demo_reconnects ∅)
    as (H1 & H2 & H3 & H4).
  - exact keyed_empty.
  - repeat constructor.
  - destruct H4 as [H5 H6].
    + apply NoDup_ListNoDup. by apply (bool_decide_unpack _).
    + cbv zeta. split; [exact H1 |]. split; [exact H2 |]. split; [exact H3 |].
      split; [| split].
      * apply (H5 (ServerInv.conn "A" 1 10)). vm_compute. auto.
      * apply (H5 (ServerInv.conn "A" 2 20)). vm_compute. auto.
      * apply (H6 (ServerInv.conn "A" 3 30)). reflexivity.
Defined.

Lemma C7_publish_once_per_live_device_witness :
  let attempts := Server.publish string ServerInv.demo_send "u1" "event-1" None
                    ServerInv.demo_registry in
  count_occ String.string_dec (List.map (fun a => Server.device a.1) attempts) "A" = 1%nat ∧
  count_occ String.string_dec (List.map (fun a => Server.device a.1) attempts) "B" = 1%nat ∧
  count_occ String.string_dec (List.map (fun a => Server.device a.1) attempts) "C" = 0%nat.
Proof.
  destruct (C7_publish_once_per_live_device string ServerInv.demo_send "u1" "event-1"
              ServerInv.demo_registry) as (_ & Hin & Hout & _).
  - unfold ServerInv.demo_registry. apply keyed_register, keyed_register, keyed_empty.
  - cbv zeta. split; [| split].
    + apply Hin. by eexists.
    + apply Hin. by eexists.
    + apply Hout. reflexivity.
Defined.

Lemma C10_cleanup_keeps_20_most_recent_witness :
  Permutation (Db.items_of 7 DbInv.demo_after)
    (firstn 20 (Db.sort_desc (Db.items_of 7 (DbInv.demo_table ++ [DbInv.demo_new])))) ∧
  (length (Db.items_of 7 DbInv.demo_after) ≤ 20)%nat ∧
  (∀ r d, In r (Db.items_of 7 DbInv.demo_after) →
          In d (Db.items_of 7 (DbInv.demo_table ++ [DbInv.demo_new])) →
          ¬ In d DbInv.demo_after → Db.desc_le r d = true) ∧
  (∀ u', u' ≠ 7 → Db.items_of u' DbInv.demo_after = Db.items_of u' DbInv.demo_table) ∧
  List.NoDup (List.map Db.id DbInv.demo_after).
Proof.
  destruct (C10_cleanup_keeps_20_most_recent Db.sort_desc sort_desc_perm sort_desc_sorted)
    as [H _].
  apply (H DbInv.demo_table DbInv.demo_new DbInv.demo_after).
  - apply NoDup_ListNoDup. by apply (bool_decide_unpack _).
  - vm_compute; reflexivity.
Defined.

(* ===================================================================== *)
(** * Part II, continued -- further properties                            *)
(* ===================================================================== *)

(** ** The provider over runs of events *)

Section ClientRunFacts.
Import Client ClientInv ClientRuns.

Variable decrypt : JsVal -> JsVal -> option string.

Lemma connect_sent env w : sent (connect env w) = sent w.
Proof.
  unfold connect.
  destruct (negb (isAuthenticated env) || negb (truthy_str (deviceId env))); [done |].
  by destruct (negb (truthy_str (localStorage w !! "access_token"%string))).
Qed.

Lemma on_clipboard_update_sent message w :
  sent (on_clipboard_update decrypt message w) = sent w.
Proof.
  unfold on_clipboard_update.
  repeat (match goal with
          | |- context [match ?x with _ => _ end] => destruct x
          end; simpl; try done).
Qed.

(** A message adds nothing to the frames sent, or one pong. *)
Lemma onmessage_sent ws parsed w :
  sent (onmessage decrypt ws parsed w) = sent w ∨
  ∃ frame, pong_frame frame ∧ sent (onmessage decrypt ws parsed w) = sent w ++ [(ws, frame)].
Proof.
  unfold onmessage. destruct parsed as [message |]; [| by left].
  destruct (get_prop message "type") as [ty |]; [| by left].
  destruct (is_str ty "clipboard_update"); [left; apply on_clipboard_update_sent |].
  destruct (is_str ty "ping"); [| by left].
  destruct (get_prop message "timestamp") as [ts |]; [| by left].
  right. eexists. split; [| vm_compute; reflexivity].
  unfold stringify_obj. simpl.
  destruct ts; simpl; (by left) || (right; eexists; split; [| reflexivity]; discriminate).
Qed.

Lemma step_sent e w w' :
  step decrypt e w = Some w' →
  sent w' = sent w ∨ ∃ ws frame, pong_frame frame ∧ sent w' = sent w ++ [(ws, frame)].
Proof.
  destruct e as [ws | ws parsed | ws | ws cause | h]; unfold step; intros H.
  - destruct (sockets w !! ws) as [[env [|]] |]; try done. injection H as <-. by left.
  - destruct (sockets w !! ws) as [[env [|]] |]; try done. injection H as <-.
    destruct (onmessage_sent ws parsed w) as [-> | (f & Hf & ->)]; [by left |].
    right. by exists ws, f.
  - destruct (sockets w !! ws); [| done]. injection H as <-. by left.
  - destruct (sockets w !! ws) as [[env st] |]; [| done]. injection H as <-.
    left. unfold onclose. simpl. by destruct (_ && _).
  - destruct (timers w !! h) as [[d env] |]; [| done]. injection H as <-.
    left. unfold reconnect_callback. by rewrite connect_sent.
Qed.

(** X1: the provider never sends anything but heartbeat answers: on every
    world it can reach, each frame handed to [ws.send] is a pong. *)
Theorem X1_only_pongs_are_sent w :
  reachable decrypt w → ∀ ws frame, In (ws, frame) (sent w) → pong_frame frame.
Proof.
  induction 1 as [ls | env w _ IH | w _ IH | ls w _ IH | e w w' _ IH Hstep];
    intros ws frame Hin.
  - destruct Hin.
  - apply (IH ws). unfold effect_mount in Hin.
    destruct (_ && _); [by rewrite connect_sent in Hin | done].
  - apply (IH ws). unfold effect_cleanup in Hin.
    by destruct (reconnectTimeoutRef w).
  - by apply (IH ws).
  - destruct (step_sent e w w' Hstep) as [Heq | (ws' & f & Hf & Heq)];
      rewrite Heq in Hin; [by apply (IH ws) |].
    apply in_app_or in Hin as [Hin | [[= <- <-] | []]]; [by apply (IH ws) | done].
Qed.

Lemma onmessage_same ws parsed w :
  same_connection_state w (onmessage decrypt ws parsed w).
Proof.
  unfold onmessage, on_clipboard_update, same_connection_state.
  repeat (match goal with
          | |- context [match ?x with _ => _ end] => destruct x
          end; simpl; try done).
Qed.

Lemma run_messages_same (msgs : list Event) :
  ∀ w w', forallb is_message msgs = true → run decrypt msgs w = Some w' →
          same_connection_state w w'.
Proof.
  induction msgs as [| e msgs IH]; intros w w' Hm Hrun.
  - injection Hrun as <-. by repeat split.
  - simpl in Hm. apply andb_true_iff in Hm as [He Hm].
    destruct e as [| ws parsed | | |]; try done.
    simpl in Hrun. destruct (sockets w !! ws) as [[env [|]] |]; try done.
    simpl in Hrun. specialize (IH _ _ Hm Hrun).
    destruct (onmessage_same ws parsed w) as (H1 & H2 & H3 & H4 & H5 & H6 & H7 & H8).
    destruct IH as (I1 & I2 & I3 & I4 & I5 & I6 & I7 & I8).
    unfold same_connection_state. by rewrite I1, I2, I3, I4, I5, I6, I7, I8.
Qed.


Lemma connect_without_token env w :
  truthy_str (localStorage w !! "access_token"%string) = false → connect env w = w.
Proof.
  intros Ht. unfold connect.
  destruct (negb (isAuthenticated env) || negb (truthy_str (deviceId env))); [done |].
  by rewrite Ht.
Qed.

Lemma step_without_token e w w' :
  truthy_str (localStorage w !! "access_token"%string) = false →
  step decrypt e w = Some w' →
  localStorage w' = localStorage w ∧
  ∀ ws, is_Some (sockets w' !! ws) → is_Some (sockets w !! ws).
Proof.
  intros Ht. destruct e as [ws | ws parsed | ws | ws cause | h]; unfold step; intros H.
  - destruct (sockets w !! ws) as [[env [|]] |] eqn:E; try done. injection H as <-.
    split; [done |]. simpl. intros ws' Hs.
    destruct (decide (ws = ws')) as [<- | Hne]; [by rewrite E |].
    by rewrite lookup_insert_ne in Hs.
  - destruct (sockets w !! ws) as [[env [|]] |]; try done. injection H as <-.
    destruct (onmessage_same ws parsed w) as (_ & _ & _ & _ & -> & -> & _). done.
  - destruct (sockets w !! ws); [| done]. by injection H as <-.
  - destruct (sockets w !! ws) as [[env st] |]; [| done]. injection H as <-.
    unfold onclose. simpl. destruct (_ && _); simpl; (split; [done |]);
      intros ws' Hs; apply lookup_delete_is_Some in Hs as [_ Hs]; done.
  - destruct (timers w !! h) as [[d env] |]; [| done]. injection H as <-.
    unfold reconnect_callback. rewrite connect_without_token by done. done.
Qed.

Lemma run_without_token (es : list Event) :
  ∀ w w',
    truthy_str (localStorage w !! "access_token"%string) = false →
    run decrypt es w = Some w' →
    localStorage w' = localStorage w ∧
    ∀ ws, is_Some (sockets w' !! ws) → is_Some (sockets w !! ws).
Proof.
  induction es as [| e es IH]; intros w w' Ht Hrun.
  - by injection Hrun as <-.
  - simpl in Hrun. destruct (step decrypt e w) as [w1 |] eqn:E; [| done]. simpl in Hrun.
    destruct (step_without_token e w w1 Ht E) as [Hls Hs].
    destruct (IH w1 w') as [Hls' Hs']; [by rewrite Hls | done |].
    split; [by rewrite Hls' |]. auto.
Qed.


(** X4: a successful open starts the backoff ladder again: after a socket
    has opened, and whatever messages have come in since, its close sets
    the reconnect timer to 1000 ms, however many failures came before. *)
Theorem X4_open_restarts_ladder w ws env (msgs : list Event) cause w1 w2 :
  reachable decrypt w →
  sockets w !! ws = Some (env, Connecting) →
  step decrypt (EvOpen ws) w = Some w1 →
  forallb is_message msgs = true →
  run decrypt msgs w1 = Some w2 →
  ∃ w3 h, step decrypt (EvClose ws cause) w2 = Some w3 ∧
          isConnected w3 = false ∧
          reconnectTimeoutRef w3 = Some h ∧
          timers w3 !! h = Some (1000, env).
Proof.
  intros Hr Hs Hopen Hm Hrun.
  destruct (reachable_authenticated decrypt w Hr) as [Hauth _].
  pose proof (Hauth ws env Connecting Hs) as Ha.
  unfold step in Hopen. rewrite Hs in Hopen. injection Hopen as <-.
  destruct (run_messages_same msgs _ _ Hm Hrun)
    as (_ & _ & _ & Hn & _ & Hsock & _ & _).
  simpl in Hn, Hsock.
  unfold step. rewrite Hsock, lookup_insert_eq.
  eexists _, _. split; [reflexivity |].
  unfold onclose. simpl. rewrite Ha, Hn. simpl.
  split; [done |]. split; [reflexivity |]. by rewrite lookup_insert_eq.
Qed.

Lemma connect_consistent env w : consistent w → consistent (connect env w).
Proof.
  intros (Hfresh & Hconn & Href). unfold connect.
  destruct (negb (isAuthenticated env) || negb (truthy_str (deviceId env))); [done |].
  destruct (negb (truthy_str (localStorage w !! "access_token"%string))); [done |].
  split; [| split]; simpl.
  - intros ws Hs. apply lookup_insert_is_Some in Hs as [<- | [_ Hs]]; [lia |].
    specialize (Hfresh ws Hs). lia.
  - intros Hc. destruct (Hconn Hc) as (ws & env' & Hs). exists ws, env'.
    rewrite lookup_insert_ne; [done |].
    intros <-. assert (nextHandle w < nextHandle w)%nat; [| lia].
    apply Hfresh. by rewrite Hs.
  - intros ws [= <-]. rewrite lookup_insert_eq. by eexists.
Qed.

(** X5: the provider's flag and ref never claim more than there is. On
    every world it can reach, [isConnected] is true only while some socket
    that has opened still awaits its close event, and [wsRef] only holds
    a socket whose close event has not yet been dispatched. *)
Theorem X5_flag_and_ref_are_sound w : reachable decrypt w → consistent w.
Proof.
  induction 1 as [ls | env w _ IH | w _ IH | ls w _ IH | e w w' _ IH Hstep].
  - split; [| split]; simpl; [| done | done].
    intros ws Hs. rewrite lookup_empty in Hs. by destruct Hs.
  - unfold effect_mount. destruct (_ && _); [by apply connect_consistent | done].
  - unfold effect_cleanup. by destruct (reconnectTimeoutRef w).
  - done.
  - destruct IH as (Hfresh & Hconn & Href).
    destruct e as [ws | ws parsed | ws | ws cause | h]; unfold step in Hstep.
    + destruct (sockets w !! ws) as [[env [|]] |] eqn:E; try done. injection Hstep as <-.
      split; [| split]; simpl.
      * intros ws' Hs. apply lookup_insert_is_Some in Hs as [<- | [_ Hs]]; [| by apply Hfresh].
        apply Hfresh. by rewrite E.
      * intros _. exists ws, env. by rewrite lookup_insert_eq.
      * intros ws' Hw. apply lookup_insert_is_Some.
        destruct (decide (ws = ws')); [by left | right]. split; [done |]. by apply Href.
    + destruct (sockets w !! ws) as [[env [|]] |]; try done. injection Hstep as <-.
      destruct (onmessage_same ws parsed w) as (H1 & H2 & _ & _ & _ & H6 & _ & H8).
      unfold consistent. by rewrite H1, H2, H6, H8.
    + destruct (sockets w !! ws); [| done]. by injection Hstep as <-.
    + destruct (sockets w !! ws) as [[env st] |]; [| done]. injection Hstep as <-.
      unfold onclose. simpl.
      destruct (_ && _); (split; [| split]); simpl; try done;
        intros ws' Hs; apply lookup_delete_is_Some in Hs as [_ Hs];
        specialize (Hfresh ws' Hs); lia.
    + destruct (timers w !! h) as [[d env] |]; [| done]. injection Hstep as <-.
      unfold reconnect_callback. apply connect_consistent. by split.
Qed.

Lemma reachable_run (es : list Event) :
  ∀ w w', reachable decrypt w → run decrypt es w = Some w' → reachable decrypt w'.
Proof.
  induction es as [| e es IH]; intros w w' Hr Hrun.
  - by injection Hrun as <-.
  - simpl in Hrun. destruct (step decrypt e w) as [w1 |] eqn:E; [| done].
    apply (IH w1); [| done]. by apply (reach_step decrypt e w).
Qed.

End ClientRunFacts.

Lemma X1_only_pongs_are_sent_witness :
  Client.sent (Client.onmessage ClientInv.no_decrypt 0%nat (Some ClientInv.demo_ping)
                 ClientInv.demo_open)
  = [(0%nat, JObj [("type"%string, JStr "pong");
                   ("timestamp"%string, JStr "2025-11-25T10:35:00Z")])] ∧
  ClientRuns.pong_frame (JObj [("type"%string, JStr "pong");
                               ("timestamp"%string, JStr "2025-11-25T10:35:00Z")]).
Proof.
  split; [vm_compute; reflexivity |].
  apply (X1_only_pongs_are_sent ClientInv.no_decrypt
           (Client.onmessage ClientInv.no_decrypt 0%nat (Some ClientInv.demo_ping)
              ClientInv.demo_open)) with (ws := 0%nat).
  - apply (ClientInv.reach_step _ (Client.EvMessage 0%nat (Some ClientInv.demo_ping))
             ClientInv.demo_open); [| vm_compute; reflexivity].
    apply (ClientInv.reach_step _ (Client.EvOpen 0%nat) ClientInv.demo_world);
      [| vm_compute; reflexivity].
    apply ClientInv.reach_mount, ClientInv.reach_initial.
  - left. vm_compute; reflexivity.
Defined.

Lemma demo_retrying_reachable : ClientInv.reachable ClientInv.no_decrypt ClientRuns.demo_retrying.
Proof.
  apply (reachable_run ClientInv.no_decrypt
           [Client.EvClose 0%nat Client.NormalClosure; Client.EvTimer 1%nat;
            Client.EvClose 2%nat Client.HeartbeatTimeout; Client.EvTimer 3%nat]
           ClientInv.demo_world); [| vm_compute; reflexivity].
  apply ClientInv.reach_mount, ClientInv.reach_initial.
Qed.



Lemma X4_open_restarts_ladder_witness :
  ∃ w3 h,
    Client.step ClientInv.no_decrypt (Client.EvClose 4%nat Client.ServerShutdown)
      (default ClientRuns.demo_retrying
         (ClientRuns.run ClientInv.no_decrypt
            [Client.EvOpen 4%nat; Client.EvMessage 4%nat (Some ClientInv.demo_ping)]
            ClientRuns.demo_retrying)) = Some w3 ∧
    Client.isConnected w3 = false ∧
    Client.reconnectTimeoutRef w3 = Some h ∧
    Client.timers w3 !! h = Some (1000, ClientInv.demo_env).
Proof.
  apply (X4_open_restarts_ladder ClientInv.no_decrypt ClientRuns.demo_retrying 4%nat
           ClientInv.demo_env [Client.EvMessage 4%nat (Some ClientInv.demo_ping)]
           Client.ServerShutdown
           (default ClientRuns.demo_retrying
              (Client.step ClientInv.no_decrypt (Client.EvOpen 4%nat) ClientRuns.demo_retrying))).
  - exact demo_retrying_reachable.
  - vm_compute; reflexivity.
  - vm_compute; reflexivity.
  - vm_compute; reflexivity.
  - vm_compute; reflexivity.
Defined.

Lemma X5_flag_and_ref_are_sound_witness : ClientRuns.consistent ClientRuns.demo_retrying.
Proof.
  apply (X5_flag_and_ref_are_sound ClientInv.no_decrypt). exact demo_retrying_reachable.
Defined.

(** ** The API client *)

Section ApiFacts.
Import Api.



Variable decrypt : JsVal -> JsVal -> option string.

(** X7: a request answered with 401 clears the session as [logout]
    does: the storage it leaves is the one [logout] leaves, the
    encryption key untouched, and from then on no run of events makes
    the WebSocket provider open a socket. A request that fails otherwise
    leaves the storage alone. *)
Theorem X7_unauthorized_ends_session (st : Auth.State) (w : Client.World)
    (es : list Client.Event) (w' : Client.World) (status : option N) :
  Client.localStorage w = Auth.localStorage st →
  let ls401 := (response_rejected (Some 401) (Client.localStorage w)).1 in
  ls401 = Auth.localStorage (Auth.logout st) ∧
  ls401 !! "encryption_key"%string = Auth.localStorage st !! "encryption_key"%string ∧
  (ClientRuns.run decrypt es (Client.set_localStorage ls401 w) = Some w' →
   ∀ ws, is_Some (Client.sockets w' !! ws) → is_Some (Client.sockets w !! ws)) ∧
  (status ≠ Some 401 → response_rejected status (Client.localStorage w)
                        = (Client.localStorage w, None)).
Proof.
  intros Hls ls401. split; [| split; [| split]].
  - unfold ls401, response_rejected, Auth.logout. simpl. by rewrite Hls.
  - unfold ls401, response_rejected. simpl. rewrite Hls. by rewrite !lookup_delete_ne.
  - intros Hrun.
    destruct (run_without_token decrypt es (Client.set_localStorage ls401 w) w') as [_ H];
      [| done | exact H].
    unfold ls401, response_rejected. simpl.
    rewrite lookup_delete_ne by done. rewrite lookup_delete_ne by done.
    by rewrite lookup_delete_eq.
  - intros Hne. unfold response_rejected.
    destruct status as [[| p] |]; try done.
    destruct (decide (p = 401%positive)) as [-> | Hp]; [done |].
    repeat (destruct p as [p | p |]; try done).
Qed.

End ApiFacts.

Lemma X7_unauthorized_ends_session_witness :
  let ls401 := (Api.response_rejected (Some 401) (Client.localStorage ClientInv.demo_open)).1 in
  ls401 !! "access_token"%string = None ∧
  (∀ ws, is_Some (Client.sockets
                    (default ClientInv.demo_open
                       (ClientRuns.run ClientInv.no_decrypt
                          [Client.EvClose 0%nat Client.NormalClosure; Client.EvTimer 1%nat]
                          (Client.set_localStorage ls401 ClientInv.demo_open))) !! ws) →
         is_Some (Client.sockets ClientInv.demo_open !! ws)).
Proof.
  destruct (X7_unauthorized_ends_session ClientInv.no_decrypt
              (Auth.mkState true None (Some "device-1"%string) false ClientInv.demo_storage)
              ClientInv.demo_open
              [Client.EvClose 0%nat Client.NormalClosure; Client.EvTimer 1%nat]
              (default ClientInv.demo_open
                 (ClientRuns.run ClientInv.no_decrypt
                    [Client.EvClose 0%nat Client.NormalClosure; Client.EvTimer 1%nat]
                    (Client.set_localStorage
                       (Api.response_rejected (Some 401)
                          (Client.localStorage ClientInv.demo_open)).1
                       ClientInv.demo_open)))
              (Some 500)) as (_ & _ & Hrun & _).
  - vm_compute; reflexivity.
  - split; [vm_compute; reflexivity |]. apply Hrun. vm_compute; reflexivity.
Defined.

(** ** The stored key and the auth flows *)

Section KeyFacts.
Import Auth AuthFlows.

Variable Key : Type.
Variable exportKey : Key → string.
Variable importKey : string → option Key.

Lemma getKey_frame (fresh : Key) (ls : gmap string string) (key : string) :
  key ≠ "encryption_key"%string →
  (getKey Key exportKey importKey fresh ls).2 !! key = ls !! key.
Proof.
  intros Hne. unfold getKey, generateKey.
  destruct (truthy_str (ls !! "encryption_key"%string)); simpl; [done |].
  by rewrite lookup_insert_ne.
Qed.

(** X9: [clearKey] removes the stored key and nothing else, and the next
    [getKey] then hands out the key the platform draws, whatever was
    stored before: what was encrypted under the old key is out of reach. *)
Theorem X9_clearKey_forgets_key (fresh : Key) (ls : gmap string string) :
  clearKey ls !! "encryption_key"%string = None ∧
  (∀ key : string, key ≠ "encryption_key"%string → clearKey ls !! key = ls !! key) ∧
  getKey Key exportKey importKey fresh (clearKey ls)
  = (Some fresh, <["encryption_key"%string := exportKey fresh]> (clearKey ls)).
Proof.
  unfold clearKey. split; [apply lookup_delete_eq |]. split.
  - intros key Hne. by rewrite lookup_delete_ne.
  - unfold getKey, generateKey. by rewrite lookup_delete_eq.
Qed.

Section Platform.

(** The platform's part: a key exported as JWK imports as the same key,
    and its JWK text is not empty. *)
Hypothesis import_export : ∀ k, importKey (exportKey k) = Some k.
Hypothesis export_nonempty : ∀ k, truthy_str (Some (exportKey k)) = true.

Lemma getKey_again (fresh1 fresh2 : Key) (ls ls1 : gmap string string) (k : Key) :
  getKey Key exportKey importKey fresh1 ls = (Some k, ls1) →
  getKey Key exportKey importKey fresh2 ls1 = (Some k, ls1).
Proof.
  intros H. unfold getKey, generateKey in *.
  destruct (truthy_str (ls !! "encryption_key"%string)) eqn:E.
  - injection H as Hk <-. by rewrite E, Hk.
  - injection H as <- <-. rewrite lookup_insert_eq, export_nonempty. simpl.
    by rewrite import_export.
Qed.

(** X8: a key is generated at most once. Once [getKey] has handed out a
    key, found or drawn, every later [getKey] hands out that same key
    and leaves the storage as it is, whatever the platform would draw;
    and [getKey] writes no entry but [encryption_key]. *)
Theorem X8_getKey_generates_once (fresh1 fresh2 : Key) (ls ls1 : gmap string string) (k : Key) :
  getKey Key exportKey importKey fresh1 ls = (Some k, ls1) →
  getKey Key exportKey importKey fresh2 ls1 = (Some k, ls1) ∧
  (∀ key : string, key ≠ "encryption_key"%string → ls1 !! key = ls !! key).
Proof.
  intros H. split.
  - by apply (getKey_again fresh1 fresh2 ls).
  - intros key Hne. rewrite <- (getKey_frame fresh1 ls key Hne). by rewrite H.
Qed.

End Platform.







End KeyFacts.

Lemma X8_getKey_generates_once_witness :
  Auth.getKey string AuthFlows.demo_export AuthFlows.demo_import "k2"
    (Auth.getKey string AuthFlows.demo_export AuthFlows.demo_import "k1" ∅).2
  = (Some "k1"%string, {["encryption_key"%string := "jk1"%string]}).
Proof.
  destruct (X8_getKey_generates_once string AuthFlows.demo_export AuthFlows.demo_import
              (fun k => eq_refl) (fun k => eq_refl) "k1" "k2" ∅
              {["encryption_key"%string := "jk1"%string]} "k1")%string as [H _].
  - vm_compute; reflexivity.
  - exact H.
Defined.


(** ** The OAuth callback page *)

Section OAuthFacts.
Import OAuthCallback.

Lemma below_16 (P : N → bool) :
  forallb P (List.map N.of_nat (seq 0 16)) = true → ∀ v, v < 16 → P v = true.
Proof.
  intros H v Hv. rewrite forallb_forall in H. apply H.
  apply in_map_iff. exists (N.to_nat v). split; [lia |]. apply in_seq. lia.
Qed.

Lemma hex_char_is_hex v : v < 16 → is_hex (hex_char v) = true.
Proof. apply (below_16 (fun v => is_hex (hex_char v))). reflexivity. Qed.

Lemma variant_digit r : r < 16 → is_variant (hex_char (N.lor (N.land r 3) 8)) = true.
Proof.
  apply (below_16 (fun r => is_variant (hex_char (N.lor (N.land r 3) 8)))). reflexivity.
Qed.

Lemma all_hex_cons (n : nat) (c : Ascii.ascii) (rest : list Ascii.ascii) :
  is_hex c = true → all_hex (S n) (c :: rest) = all_hex n rest.
Proof. intros H. simpl. by rewrite H. Qed.

Lemma all_hex_0 (s : list Ascii.ascii) : all_hex 0 s = Some s.
Proof. reflexivity. Qed.

(** X12: where [crypto.randomUUID] is missing, the identifier built from
    the template is a well-formed version 4 UUID whatever [Math.random]
    returns: 36 characters, hyphens in their places, lower-case
    hexadecimal digits, version digit 4 and variant digit 8, 9, a or b. *)
Theorem X12_fallback_uuid_is_v4 (random16 : nat → N) :
  (∀ i, random16 i < 16) → uuid_v4 (generateUUID None random16) = true.
Proof.
  intros Hr. unfold generateUUID.
  set (l := replace_xy _ _ _). cbv -[hex_char N.lor N.land] in l. subst l.
  unfold uuid_v4. rewrite String.list_ascii_of_string_of_list_ascii.
  do 5 (rewrite !all_hex_cons by (apply hex_char_is_hex, Hr);
        rewrite all_hex_0; cbv beta iota).
  rewrite (variant_digit _ (Hr _)). reflexivity.
Qed.

Variable Key : Type.
Variable exportKey : Key → string.
Variable importKey : string → option Key.
Variable Err : Type.
Variable describe : Err → string.
Variable import_error : Err.

(** X13: the callback is processed once, and it sends the browser to the
    dashboard only with a session in the storage. A second run changes
    nothing; when the page is sent to [/dashboard], both requests have
    succeeded and the local storage holds the device's token, the user
    id, the device id and an encryption key; with an [error] parameter or
    without a code, neither storage is written and a return to the login
    page is scheduled. *)
Theorem X13_callback_once_and_ready (code state errorParam : option string)
    (googleCallback : string → option string → Err + (string * string))
    (registered : Err + (string * string)) (fresh : Key) (pg : Page) :
  hasProcessed pg = false → location pg = None →
  let pg' := handleCallback Key exportKey importKey Err describe import_error
               code state errorParam googleCallback registered fresh pg in
  (∀ code2 state2 errorParam2 googleCallback2 registered2 fresh2,
     handleCallback Key exportKey importKey Err describe import_error
       code2 state2 errorParam2 googleCallback2 registered2 fresh2 pg' = pg') ∧
  (location pg' = Some "/dashboard"%string →
     ∃ dtoken did,
       registered = inr (dtoken, did) ∧
       localStorage pg' !! "access_token"%string = Some dtoken ∧
       localStorage pg' !! "device_id"%string = Some did ∧
       is_Some (localStorage pg' !! "user_id"%string) ∧
       is_Some (localStorage pg' !! "encryption_key"%string) ∧
       sessionStorage pg' !! "oauth_state"%string = None) ∧
  (truthy_str errorParam = true ∨ truthy_str code = false →
     localStorage pg' = localStorage pg ∧ sessionStorage pg' = sessionStorage pg ∧
     is_Some (error pg') ∧ login_redirects pg' = S (login_redirects pg) ∧
     location pg' = None).
Proof.
  intros Hp Hloc pg'.
  assert (Hdone : hasProcessed pg' = true).
  { unfold pg', handleCallback. rewrite Hp.
    destruct (truthy_str errorParam); [done |].
    destruct code as [[| c0 cs] |]; try done.
    destruct (googleCallback _ _) as [e | [token uid]]; [done |].
    destruct registered as [e | [dtoken did]]; [done |].
    destruct (Auth.getKey _ _ _ _ _) as [[k |] ls']; done. }
  split; [| split].
  - intros. unfold handleCallback at 1. by rewrite Hdone.
  - unfold pg', handleCallback. rewrite Hp.
    destruct (truthy_str errorParam); [simpl; by rewrite Hloc |].
    destruct code as [[| c0 cs] |]; try (simpl; by rewrite Hloc).
    destruct (googleCallback _ _) as [e | [token uid]]; [simpl; by rewrite Hloc |].
    destruct registered as [e | [dtoken did]]; [simpl; by rewrite Hloc |].
    destruct (Auth.getKey _ _ _ _ _) as [k ls'] eqn:Ek.
    assert (Hf : ∀ key : string, key ≠ "encryption_key"%string →
               ls' !! key = <["device_id"%string := did]>
                              (<["access_token"%string := dtoken]>
                                 (<["user_id"%string := uid]>
                                    (<["access_token"%string := token]> (localStorage pg))))
                            !! key).
    { intros key Hne.
      pose proof (getKey_frame Key exportKey importKey fresh
                    (<["device_id"%string := did]>
                       (<["access_token"%string := dtoken]>
                          (<["user_id"%string := uid]>
                             (<["access_token"%string := token]> (localStorage pg)))))
                    key Hne) as Hg.
      by rewrite Ek in Hg. }
    assert (Hkey : is_Some (ls' !! "encryption_key"%string)).
    { unfold Auth.getKey, Auth.generateKey in Ek.
      destruct (truthy_str (_ !! "encryption_key"%string)) eqn:E.
      - injection Ek as _ <-. destruct (_ !! "encryption_key"%string); [by eexists | done].
      - injection Ek as _ <-. rewrite lookup_insert_eq. by eexists. }
    destruct k as [k |]; simpl; [| by rewrite Hloc].
    intros _. exists dtoken, did. split; [done |].
    rewrite !Hf by done. split; [| split; [| split; [| split]]].
    + rewrite lookup_insert_ne by done. apply lookup_insert_eq.
    + apply lookup_insert_eq.
    + rewrite !lookup_insert_ne by done. rewrite lookup_insert_eq. by eexists.
    + done.
    + apply lookup_delete_eq.
  - intros Hearly. unfold pg', handleCallback. rewrite Hp.
    destruct (truthy_str errorParam) eqn:Ee; [simpl; by rewrite Hloc; eauto |].
    destruct Hearly as [? | Hc]; [done |].
    destruct code as [[| c0 cs] |]; try done; simpl; rewrite Hloc; eauto.
Qed.

End OAuthFacts.

Lemma X12_fallback_uuid_is_v4_witness :
  OAuthCallback.uuid_v4 (OAuthCallback.generateUUID None OAuthCallback.demo_random) = true.
Proof.
  apply (X12_fallback_uuid_is_v4 OAuthCallback.demo_random).
  intros i. unfold OAuthCallback.demo_random.
  pose proof (Nat.mod_upper_bound (i * 7) 16). lia.
Defined.

Lemma X13_callback_once_and_ready_witness :
  let pg' := OAuthCallback.handleCallback string AuthFlows.demo_export AuthFlows.demo_import
               string id "import failed" (Some "code-1") (Some "s1") None
               (fun _ _ => inr ("token-1", "user-1")) (inr ("token-2", "device-1")) "k1"
               (OAuthCallback.mounted {["oauth_state" := "s0"]} ∅) in
  OAuthCallback.location pg' = Some "/dashboard" ∧
  OAuthCallback.localStorage pg' !! "access_token" = Some "token-2" ∧
  OAuthCallback.sessionStorage pg' !! "oauth_state" = None.
Proof.
  destruct (X13_callback_once_and_ready string AuthFlows.demo_export AuthFlows.demo_import
              string id "import failed" (Some "code-1") (Some "s1") None
              (fun _ _ => inr ("token-1", "user-1")) (inr ("token-2", "device-1")) "k1"
              (OAuthCallback.mounted {["oauth_state" := "s0"]} ∅))%string
    as (_ & Hready & _).
  - reflexivity.
  - reflexivity.
  - destruct Hready as (dtoken & did & Hreg & Htok & _ & _ & _ & Hst);
      [vm_compute; reflexivity |].
    injection Hreg as <- <-.
    split; [vm_compute; reflexivity |]. split; [exact Htok | exact Hst].
Defined.

(** ** Hex digests, Base64 text, and the cipher round trip *)

Section CryptoFacts.
Import Base64 Crypto.

Lemma two_digits (b : Byte.byte) :
  padStart 2 48 (toString16 b)
  = [hex_unit (Byte.to_N b / 16); hex_unit (Byte.to_N b mod 16)].
Proof. destruct b; reflexivity. Qed.

Lemma hex_unit_lower v : v < 16 → is_lower_hex (hex_unit v) = true.
Proof. apply (below_16 (fun v => is_lower_hex (hex_unit v))). reflexivity. Qed.

Lemma hex_unit_inj v v' : v < 16 → v' < 16 → hex_unit v = hex_unit v' → v = v'.
Proof.
  intros Hv Hv' E.
  pose proof (below_16
    (fun v => forallb (fun v' => implb (hex_unit v =? hex_unit v') (v =? v'))
                (List.map N.of_nat (seq 0 16))) eq_refl v Hv) as H.
  rewrite forallb_forall in H.
  assert (Hin : In v' (List.map N.of_nat (seq 0 16))).
  { apply in_map_iff. exists (N.to_nat v'). split; [lia |]. apply in_seq. lia. }
  specialize (H v' Hin). rewrite E, N.eqb_refl in H. simpl in H. by apply N.eqb_eq.
Qed.

Lemma byte_digits (b : Byte.byte) :
  ∃ q r, Byte.to_N b / 16 = q ∧ Byte.to_N b mod 16 = r ∧
         Byte.to_N b = q * 16 + r ∧ q < 16 ∧ r < 16.
Proof.
  destruct (split_at (Byte.to_N b) 16) as (q & r & Hq & Hr & E & L); [lia |].
  pose proof (Byte.to_N_bounded b). exists q, r. repeat split; try done. lia.
Qed.

Lemma hex_of_bytes_cons (b : Byte.byte) (l : list Byte.byte) :
  hex_of_bytes (b :: l)
  = hex_unit (Byte.to_N b / 16) :: hex_unit (Byte.to_N b mod 16) :: hex_of_bytes l.
Proof. unfold hex_of_bytes. simpl. by rewrite two_digits. Qed.

Lemma hex_of_bytes_inj : ∀ l l', hex_of_bytes l = hex_of_bytes l' → l = l'.
Proof.
  induction l as [| b l IH]; intros [| b' l'] E; try done.
  - by rewrite hex_of_bytes_cons in E.
  - by rewrite hex_of_bytes_cons in E.
  - rewrite !hex_of_bytes_cons in E. injection E as E1 E2 E3.
    destruct (byte_digits b) as (q & r & Hq & Hr & Eb & Lq & Lr).
    destruct (byte_digits b') as (q' & r' & Hq' & Hr' & Eb' & Lq' & Lr').
    rewrite Hq, Hq' in E1. rewrite Hr, Hr' in E2.
    apply hex_unit_inj in E1; [| done | done]. apply hex_unit_inj in E2; [| done | done].
    assert (Byte.to_N b = Byte.to_N b') as Hn by (subst; lia).
    assert (b = b') as ->.
    { pose proof (Byte.of_to_N b) as H1. rewrite Hn, Byte.of_to_N in H1. congruence. }
    f_equal. by apply IH.
Qed.

(** X14: the hexadecimal text of [hash] has two lower-case digits per
    byte, small bytes zero-padded, and different byte sequences never
    give the same text. *)
Theorem X14_hex_digest_text (hashArray : list Byte.byte) :
  length (hex_of_bytes hashArray) = (2 * length hashArray)%nat ∧
  forallb is_lower_hex (hex_of_bytes hashArray) = true ∧
  (∀ other, hex_of_bytes hashArray = hex_of_bytes other → hashArray = other).
Proof.
  split; [| split].
  - induction hashArray as [| b l IH]; [done |].
    rewrite hex_of_bytes_cons. simpl. rewrite IH. lia.
  - induction hashArray as [| b l IH]; [done |].
    rewrite hex_of_bytes_cons.
    destruct (byte_digits b) as (q & r & -> & -> & _ & Lq & Lr).
    simpl. by rewrite !hex_unit_lower, IH.
  - apply hex_of_bytes_inj.
Qed.

Lemma b64_char_in_alphabet s : In (b64_char s) alphabet.
Proof.
  unfold b64_char. destruct (lt_dec (N.to_nat s) (length alphabet)) as [H | H].
  - by apply nth_In.
  - rewrite nth_overflow by lia. vm_compute. auto.
Qed.

Lemma sextets_count : ∀ bs : list N,
  (length (sextets bs) + length (padding (length bs)) = 4 * ((length bs + 2) / 3))%nat.
Proof.
  induction bs as [| a | a b | a b c l IH] using list_ind3; try reflexivity.
  cbn [sextets length]. rewrite padding_step.
  replace (S (S (S (length l))) + 2)%nat with ((length l + 2) + 1 * 3)%nat by lia.
  rewrite Nat.div_add by lia. lia.
Qed.

Lemma arrayBuffer_text (buffer : list Byte.byte) :
  arrayBufferToBase64 buffer
  = Some (List.map b64_char (sextets (List.map fromCharCode buffer))
          ++ padding (length buffer)).
Proof.
  unfold arrayBufferToBase64. rewrite binary_of_buffer, app_nil_l. unfold btoa.
  rewrite length_map.
  assert (forallb (fun c => c <=? 255) (List.map fromCharCode buffer) = true) as ->; [| done].
  apply forallb_forall. intros c Hc. apply in_map_iff in Hc as (b & <- & _).
  apply N.leb_le. apply Byte.to_N_bounded.
Qed.

Lemma base64_text_decodes (buffer : list Byte.byte) :
  ∃ text, arrayBufferToBase64 buffer = Some text ∧ base64ToArrayBuffer text = Some buffer.
Proof.
  unfold arrayBufferToBase64. rewrite binary_of_buffer, app_nil_l.
  destruct (atob_btoa (List.map fromCharCode buffer) (binary_bounded buffer))
    as (e & He & Hd).
  exists e. split; [done |].
  unfold base64ToArrayBuffer. rewrite Hd. simpl. f_equal.
  rewrite List.map_map. rewrite <- (List.map_id buffer) at 2.
  apply List.map_ext. apply to_uint8_fromCharCode.
Qed.

(** X16: the Base64 text of a buffer of [n] bytes has [4 * ceil(n / 3)]
    characters, all from the alphabet or [=], and no other buffer has the
    same text; the text of an IV is 16 characters without padding. *)
Theorem X16_base64_text_shape (buffer : list Byte.byte) :
  (∃ text,
     arrayBufferToBase64 buffer = Some text ∧
     length text = (4 * ((length buffer + 2) / 3))%nat ∧
     (∀ c, In c text → In c alphabet ∨ c = pad) ∧
     (∀ other, arrayBufferToBase64 other = Some text → other = buffer)) ∧
  (∀ random, ∃ ivText,
     arrayBufferToBase64 (generateIV random) = Some ivText ∧
     length ivText = 16%nat ∧ ¬ In pad ivText).
Proof.
  split.
  - eexists. split; [apply arrayBuffer_text |]. split; [| split].
    + rewrite length_app, length_map.
      rewrite <- (length_map fromCharCode buffer). apply sextets_count.
    + intros c Hc. apply in_app_or in Hc as [Hc | Hc].
      * left. apply in_map_iff in Hc as (x & <- & _). apply b64_char_in_alphabet.
      * right. unfold padding in Hc.
        destruct (length buffer mod 3)%nat as [| [| [| n]]]; simpl in Hc; intuition.
    + intros other Ho.
      destruct (base64_text_decodes other) as (t & Ht & Hd).
      destruct (base64_text_decodes buffer) as (t' & Ht' & Hd').
      rewrite arrayBuffer_text in Ht'. rewrite Ho in Ht.
      injection Ht as <-. injection Ht' as <-. congruence.
  - intros random. eexists. split; [apply arrayBuffer_text |].
    assert (Hlen : length (generateIV random) = 12%nat).
    { unfold generateIV. by rewrite length_map, length_seq. }
    rewrite Hlen. change (padding 12) with (@nil N). rewrite app_nil_r. split.
    + rewrite length_map.
      pose proof (sextets_count (List.map fromCharCode (generateIV random))) as H.
      rewrite length_map, Hlen in H.
      change (length (padding 12)) with 0%nat in H.
      change (4 * ((12 + 2) / 3))%nat with 16%nat in H. lia.
    + intros Hin. apply in_map_iff in Hin as (x & Hx & Hin).
      pose proof (sextets_bounded _ (binary_bounded (generateIV random))) as Hb.
      rewrite Forall_forall in Hb. apply list_elem_of_In in Hin.
      destruct (b64_char_plain x (Hb x Hin)) as [_ Hne].
      apply N.eqb_neq in Hne. done.
Qed.

Variable Key : Type.
Variable exportKey : Key → string.
Variable importKey : string → option Key.
Variable utf8_encode : JsString → list Byte.byte.
Variable utf8_decode : list Byte.byte → JsString.
Variable sha256 : list Byte.byte → list Byte.byte.
Variable aes_gcm_encrypt : Key → list Byte.byte → list Byte.byte → list Byte.byte.
Variable aes_gcm_decrypt : Key → list Byte.byte → list Byte.byte → option (list Byte.byte).

(** X15: with a digest of 32 bytes, [hash] is a text of 64 lower-case
    hexadecimal digits, the width of the [content_hash] column, and two
    contents have the same hash exactly when their digests are equal. *)
Theorem X15_hash_is_64_hex_digits (content : JsString) :
  (∀ data, length (sha256 data) = 32%nat) →
  length (hash utf8_encode sha256 content) = 64%nat ∧
  forallb is_lower_hex (hash utf8_encode sha256 content) = true ∧
  (∀ other, hash utf8_encode sha256 content = hash utf8_encode sha256 other
            ↔ sha256 (utf8_encode content) = sha256 (utf8_encode other)).
Proof.
  intros Hlen. unfold hash. split; [| split].
  - induction (sha256 (utf8_encode content)) as [| b l IH] eqn:E in Hlen |- *.
    + specialize (Hlen (utf8_encode content)). by rewrite E in Hlen.
    + clear IH. pose proof (Hlen (utf8_encode content)) as H. rewrite E in H.
      assert (Hl : ∀ l : list Byte.byte, length (hex_of_bytes l) = (2 * length l)%nat).
      { clear. induction l as [| b l IH]; [done |].
        rewrite hex_of_bytes_cons. simpl. rewrite IH. lia. }
      rewrite Hl, H. reflexivity.
  - generalize (sha256 (utf8_encode content)). induction l as [| b l IH]; [done |].
    rewrite hex_of_bytes_cons.
    destruct (byte_digits b) as (q & r & -> & -> & _ & Lq & Lr).
    simpl. by rewrite !hex_unit_lower, IH.
  - intros other. split; [apply hex_of_bytes_inj | by intros ->].
Qed.

(** X17: what [encrypt] returns, [decrypt] turns back into the plaintext,
    as long as the stored key is the same: given a platform whose AES-GCM
    decrypts what it encrypted, whose exported keys import as themselves,
    and whose UTF-8 decoding gives the plaintext back, the Base64
    transport of ciphertext and IV loses nothing. And [encrypt] rejects
    only when [getKey] does. *)
Theorem X17_decrypt_after_encrypt (fresh fresh' : Key) (random : nat → Byte.byte)
    (plaintext : JsString) (ls : gmap string string) :
  (∀ k, importKey (exportKey k) = Some k) →
  (∀ k, truthy_str (Some (exportKey k)) = true) →
  (∀ k iv data, aes_gcm_decrypt k iv (aes_gcm_encrypt k iv data) = Some data) →
  utf8_decode (utf8_encode plaintext) = plaintext →
  let r := encrypt Key exportKey importKey utf8_encode aes_gcm_encrypt fresh random
             plaintext ls in
  (r.1 = None ↔ (Auth.getKey Key exportKey importKey fresh ls).1 = None) ∧
  (∀ encrypted iv, r.1 = Some (encrypted, iv) →
     decrypt Key exportKey importKey utf8_decode aes_gcm_decrypt fresh' encrypted iv r.2
     = (Some plaintext, r.2)).
Proof.
  intros Himp Hne Haes Hutf. cbv zeta. unfold encrypt, decrypt.
  destruct (Auth.getKey Key exportKey importKey fresh ls) as [key ls1] eqn:Ek.
  destruct key as [k |]; simpl.
  - destruct (base64_text_decodes (aes_gcm_encrypt k (generateIV random)
                                     (utf8_encode plaintext))) as (e & He & Hde).
    destruct (base64_text_decodes (generateIV random)) as (i & Hi & Hdi).
    rewrite He, Hi. simpl. split; [done |].
    intros encrypted iv [= <- <-].
    rewrite (getKey_again Key exportKey importKey Himp Hne fresh fresh' ls ls1 k Ek).
    simpl. rewrite Hde, Hdi. simpl. rewrite Haes. simpl. by rewrite Hutf.
  - split; [done |]. by intros.
Qed.

End CryptoFacts.

Lemma demo_digest_length (data : list Byte.byte) : length (Crypto.demo_digest data) = 32%nat.
Proof.
  unfold Crypto.demo_digest. rewrite length_take, length_app, repeat_length. lia.
Qed.

Lemma demo_cipher_round (k : string) (iv data : list Byte.byte) :
  Crypto.demo_open k iv (Crypto.demo_seal k iv data) = Some data.
Proof.
  unfold Crypto.demo_open, Crypto.demo_seal.
  assert ((length iv <=? length (iv ++ rev data))%nat = true) as ->.
  { apply Nat.leb_le. rewrite length_app. lia. }
  by rewrite drop_app_length, rev_involutive.
Qed.

Lemma X15_hash_is_64_hex_digits_witness :
  length (Crypto.hash Crypto.demo_encode Crypto.demo_digest (Base64.of_ascii "hello")) = 64%nat ∧
  forallb Crypto.is_lower_hex
    (Crypto.hash Crypto.demo_encode Crypto.demo_digest (Base64.of_ascii "hello")) = true.
Proof.
  destruct (X15_hash_is_64_hex_digits Crypto.demo_encode Crypto.demo_digest
              (Base64.of_ascii "hello") demo_digest_length) as (H1 & H2 & _).
  split; [exact H1 | exact H2].
Defined.

Lemma X17_decrypt_after_encrypt_witness :
  let r := Crypto.encrypt string AuthFlows.demo_export AuthFlows.demo_import
             Crypto.demo_encode Crypto.demo_seal "k1" Crypto.demo_bytes
             (Base64.of_ascii "hello") ∅ in
  ∃ encrypted iv,
    r.1 = Some (encrypted, iv) ∧
    Crypto.decrypt string AuthFlows.demo_export AuthFlows.demo_import
      Crypto.demo_decode Crypto.demo_open "k2" encrypted iv r.2
    = (Some (Base64.of_ascii "hello"), r.2).
Proof.
  destruct (X17_decrypt_after_encrypt string AuthFlows.demo_export AuthFlows.demo_import
              Crypto.demo_encode Crypto.demo_decode Crypto.demo_seal Crypto.demo_open
              "k1" "k2" Crypto.demo_bytes (Base64.of_ascii "hello") ∅)%string as [_ H].
  - intros k. reflexivity.
  - intros k. reflexivity.
  - exact demo_cipher_round.
  - vm_compute; reflexivity.
  - cbv zeta.
    destruct (Crypto.encrypt string AuthFlows.demo_export AuthFlows.demo_import
                Crypto.demo_encode Crypto.demo_seal "k1" Crypto.demo_bytes
                (Base64.of_ascii "hello") ∅).1 as [[e i] |] eqn:E.
    + exists e, i. split; [reflexivity |]. by apply H.
    + vm_compute in E. discriminate.
Defined.

(** ** The clipboard monitor *)

Section DashboardFacts.
Import Base64 Dashboard.





End DashboardFacts.


(** ** More on the cleanup trigger *)

Section TriggerFacts.
Import Db.

Variable order : list Row → list Row.
Hypothesis order_perm : ∀ l, Permutation (order l) l.
Hypothesis order_sorted : ∀ l, StronglySorted (fun a b => desc_le a b = true) (order l).

Lemma items_of_snoc (new : Row) (t : list Row) :
  items_of (user_id new) (t ++ [new]) = items_of (user_id new) t ++ [new].
Proof. unfold items_of. rewrite List.filter_app. simpl. by rewrite N.eqb_refl. Qed.

Lemma rows_NoDup (t : list Row) : List.NoDup (List.map id t) → List.NoDup t.
Proof. apply List.NoDup_map_inv. Qed.

Lemma order_In (l : list Row) (r : Row) : In r (order l) ↔ In r l.
Proof.
  split; intros H.
  - by apply (Permutation_in _ (order_perm l)).
  - by apply (Permutation_in _ (Permutation_sym (order_perm l))).
Qed.

(** With at most twenty rows of the user, the trigger deletes nothing. *)
Lemma cleanup_small (new : Row) (t1 : list Row) :
  (length (items_of (user_id new) t1) ≤ 20)%nat →
  cleanup_old_clipboard_items order new t1 = t1.
Proof.
  intros Hlen. unfold cleanup_old_clipboard_items. apply filter_all.
  apply List.Forall_forall. intros r Hr.
  destruct (user_id r =? user_id new) eqn:E; [| done]. simpl.
  apply negb_true_iff, negb_false_iff. apply existsb_exists. exists (id r).
  split; [| apply N.eqb_refl]. unfold most_recent_ids. apply in_map.
  rewrite List.firstn_all2.
  - apply order_In. apply in_items_of. split; [done |]. by apply N.eqb_eq.
  - fold (items_of (user_id new) t1). by rewrite (Permutation_length (order_perm _)).
Qed.

Lemma cleanup_perm (new : Row) (t1 : list Row) :
  List.NoDup (List.map id t1) →
  Permutation (items_of (user_id new) (cleanup_old_clipboard_items order new t1))
              (firstn 20 (order (items_of (user_id new) t1))).
Proof.
  intros Hnd. apply Permutation.NoDup_Permutation.
  - apply rows_NoDup. unfold items_of, cleanup_old_clipboard_items.
    by do 2 apply NoDup_map_filter.
  - assert (HL : List.NoDup (order (items_of (user_id new) t1))).
    { apply (Permutation.Permutation_NoDup (Permutation_sym (order_perm _))).
      apply rows_NoDup. unfold items_of. by apply NoDup_map_filter. }
    rewrite <- (firstn_skipn 20 (order _)) in HL. by apply List.NoDup_app_remove_r in HL.
  - intros r. by apply cleanup_keeps_first.
Qed.

(** X19: below the limit the trigger deletes nothing, and in general it
    leaves [min(20, n + 1)] rows: an insert for a user with at most 19
    rows leaves the table as it was with the new row added, and an insert
    for a user with [n] rows leaves that user [min(20, n + 1)] rows. *)
Theorem X19_insert_row_count (t : list Row) (new : Row) (t' : list Row) :
  List.NoDup (List.map id t) → insert order new t = Some t' →
  ((length (items_of (user_id new) t) ≤ 19)%nat → t' = t ++ [new]) ∧
  length (items_of (user_id new) t') = Nat.min 20 (S (length (items_of (user_id new) t))).
Proof.
  intros Hnd Hi. destruct (insert_accepted order new t t' Hnd Hi) as [-> Hnd1]. split.
  - intros Hlen. apply cleanup_small. rewrite items_of_snoc, length_app. simpl. lia.
  - rewrite (Permutation_length (cleanup_perm new (t ++ [new]) Hnd1)).
    rewrite List.length_firstn, (Permutation_length (order_perm _)).
    rewrite items_of_snoc, length_app. cbn [length]. by rewrite Nat.add_1_r.
Qed.

(** X21: the trigger's DELETE is idempotent: run again for the same row
    on the table it has cleaned, it deletes nothing more. *)
Theorem X21_cleanup_idempotent (new : Row) (t1 : list Row) :
  List.NoDup (List.map id t1) →
  cleanup_old_clipboard_items order new (cleanup_old_clipboard_items order new t1)
  = cleanup_old_clipboard_items order new t1.
Proof.
  intros Hnd. apply cleanup_small.
  rewrite (Permutation_length (cleanup_perm new t1 Hnd)). apply List.firstn_le_length.
Qed.

(** Where the new row stands in the ordering of its user's rows. *)
Lemma new_row_position (t : list Row) (new : Row) :
  List.NoDup (List.map id (t ++ [new])) →
  ∃ l1 l2,
    order (items_of (user_id new) (t ++ [new])) = l1 ++ new :: l2 ∧
    ¬ In new l1 ∧
    (∀ x, In x l1 → In x (items_of (user_id new) t) ∧ desc_le x new = true) ∧
    (∀ x, In x (items_of (user_id new) t) → desc_le new x = false → In x l1) ∧
    List.NoDup l1.
Proof.
  intros Hnd1. set (u := user_id new).
  assert (Hin : In new (order (items_of u (t ++ [new])))).
  { apply order_In. unfold u. rewrite items_of_snoc. apply in_or_app. right. by left. }
  apply in_split in Hin as (l1 & l2 & HL).
  assert (HndL : List.NoDup (l1 ++ new :: l2)).
  { rewrite <- HL. apply (Permutation.Permutation_NoDup (Permutation_sym (order_perm _))).
    apply rows_NoDup. unfold items_of. by apply NoDup_map_filter. }
  assert (Hs : StronglySorted (fun a b => desc_le a b = true) (l1 ++ new :: l2)).
  { rewrite <- HL. apply order_sorted. }
  assert (Hmem : ∀ x, In x (l1 ++ new :: l2) ↔ In x (items_of u t) ∨ x = new).
  { intros x. rewrite <- HL, order_In. unfold u. rewrite items_of_snoc, in_app_iff.
    simpl. intuition. }
  pose proof (List.NoDup_remove_2 _ _ _ HndL) as Hnot.
  exists l1, l2. split; [done |]. split; [| split; [| split]].
  - intros H. apply Hnot. apply in_or_app. by left.
  - intros x Hx. split.
    + destruct (proj1 (Hmem x)) as [H | ->]; [apply in_or_app; by left | done |].
      exfalso. apply Hnot. apply in_or_app. by left.
    + apply (sorted_app_le _ l1 (new :: l2) Hs x new Hx). by left.
  - intros x Hx Hlt.
    pose proof (proj2 (Hmem x) (or_introl Hx)) as Hx'.
    apply in_app_or in Hx' as [H | [<- | H]]; [done | |].
    + exfalso. apply in_items_of in Hx as [Hx _].
      assert (Hn : List.NoDup (t ++ [new])) by by apply rows_NoDup.
      apply (List.NoDup_remove_2 t [] new) in Hn. apply Hn. by rewrite app_nil_r.
    + exfalso.
      assert (Hs' : StronglySorted (fun a b => desc_le a b = true) ((l1 ++ [new]) ++ l2)).
      { by rewrite <- app_assoc. }
      pose proof (sorted_app_le _ (l1 ++ [new]) l2 Hs' new x) as Hle.
      rewrite Hle in Hlt; [done | | done]. apply in_or_app. right. by left.
  - by apply List.NoDup_app_remove_r in HndL.
Qed.

(** X20: whether the row just inserted survives its own trigger. It is
    kept when at most 19 of the user's rows are at least as recent as it
    is, so a row newer than all the others always is; it is deleted at
    once, the insert leaving no trace, when twenty of the user's rows are
    strictly more recent. *)
Theorem X20_new_row_kept_or_dropped (t : list Row) (new : Row) (t' : list Row) :
  List.NoDup (List.map id t) → insert order new t = Some t' →
  ((length (List.filter (fun r => desc_le r new) (items_of (user_id new) t)) ≤ 19)%nat →
   In new t') ∧
  ((20 ≤ length (List.filter (fun r => negb (desc_le new r)) (items_of (user_id new) t)))%nat →
   ¬ In new t').
Proof.
  intros Hnd Hi. destruct (insert_accepted order new t t' Hnd Hi) as [-> Hnd1].
  destruct (new_row_position t new Hnd1) as (l1 & l2 & HL & Hnew & Hbefore & Hafter & Hnd_l1).
  assert (Hkept : ∀ r, In r (items_of (user_id new)
                               (cleanup_old_clipboard_items order new (t ++ [new])))
                       ↔ In r (firstn 20 (l1 ++ new :: l2))).
  { intros r. rewrite <- HL. by apply cleanup_keeps_first. }
  split.
  - intros Hlen.
    assert (Hl1 : (length l1 ≤ 19)%nat).
    { etrans; [| exact Hlen]. apply List.NoDup_incl_length; [done |].
      intros x Hx. destruct (Hbefore x Hx) as [H1 H2]. apply filter_In. by split. }
    assert (In new (firstn 20 (l1 ++ new :: l2))) as Hin.
    { rewrite List.firstn_app. apply in_or_app. right.
      destruct (20 - length l1)%nat as [| k] eqn:E; [lia |]. by left. }
    apply Hkept in Hin. by apply in_items_of in Hin as [? _].
  - intros Hlen.
    assert (Hl1 : (20 ≤ length l1)%nat).
    { etrans; [exact Hlen |]. apply List.NoDup_incl_length.
      - apply List.NoDup_filter. apply rows_NoDup. unfold items_of.
        apply NoDup_map_filter.
        rewrite List.map_app in Hnd1. by apply List.NoDup_app_remove_r in Hnd1.
      - intros x Hx. apply filter_In in Hx as [Hx Hlt].
        apply Hafter; [done |]. by apply negb_true_iff. }
    assert (Hfirst : firstn 20 (l1 ++ new :: l2) = firstn 20 l1).
    { rewrite List.firstn_app. replace (20 - length l1)%nat with 0%nat by lia.
      simpl. by rewrite app_nil_r. }
    intros Hin. apply Hnew.
    assert (In new (firstn 20 (l1 ++ new :: l2))) as H.
    { apply Hkept. apply in_items_of. by split. }
    rewrite Hfirst in H. by apply firstn_In in H.
Qed.

End TriggerFacts.

Lemma X19_insert_row_count_witness :
  let new := Db.mkRow 9 7 (Some 3%Z) in
  Db.insert Db.sort_desc new DbMore.few_rows = Some (DbMore.few_rows ++ [new]) ∧
  length (Db.items_of 7 (DbMore.few_rows ++ [new])) = 6%nat.
Proof.
  destruct (X19_insert_row_count Db.sort_desc sort_desc_perm DbMore.few_rows
              (Db.mkRow 9 7 (Some 3%Z))
              (default [] (Db.insert Db.sort_desc (Db.mkRow 9 7 (Some 3%Z)) DbMore.few_rows)))
    as [Hsmall Hcount].
  - apply NoDup_ListNoDup. by apply (bool_decide_unpack _).
  - vm_compute; reflexivity.
  - cbv zeta. rewrite <- Hsmall; [| vm_compute; lia]. split; [vm_compute; reflexivity |].
    exact Hcount.
Defined.

Lemma X20_new_row_kept_or_dropped_witness :
  In (Db.mkRow 21 7 (Some 21%Z))
     (default [] (Db.insert Db.sort_desc (Db.mkRow 21 7 (Some 21%Z)) DbMore.full_rows)) ∧
  ¬ In (Db.mkRow 22 7 (Some 0%Z))
       (default [] (Db.insert Db.sort_desc (Db.mkRow 22 7 (Some 0%Z)) DbMore.full_rows)).
Proof.
  split.
  - destruct (X20_new_row_kept_or_dropped Db.sort_desc sort_desc_perm sort_desc_sorted
                DbMore.full_rows (Db.mkRow 21 7 (Some 21%Z))
                (default [] (Db.insert Db.sort_desc (Db.mkRow 21 7 (Some 21%Z))
                               DbMore.full_rows))) as [Hkept _].
    + apply NoDup_ListNoDup. by apply (bool_decide_unpack _).
    + vm_compute; reflexivity.
    + apply Hkept. vm_compute. lia.
  - destruct (X20_new_row_kept_or_dropped Db.sort_desc sort_desc_perm sort_desc_sorted
                DbMore.full_rows (Db.mkRow 22 7 (Some 0%Z))
                (default [] (Db.insert Db.sort_desc (Db.mkRow 22 7 (Some 0%Z))
                               DbMore.full_rows))) as [_ Hdropped].
    + apply NoDup_ListNoDup. by apply (bool_decide_unpack _).
    + vm_compute; reflexivity.
    + apply Hdropped. vm_compute. lia.
Defined.

Lemma X21_cleanup_idempotent_witness :
  let new := Db.mkRow 21 7 (Some 21%Z) in
  Db.cleanup_old_clipboard_items Db.sort_desc new
    (Db.cleanup_old_clipboard_items Db.sort_desc new (DbMore.full_rows ++ [new]))
  = Db.cleanup_old_clipboard_items Db.sort_desc new (DbMore.full_rows ++ [new]).
Proof.
  apply (X21_cleanup_idempotent Db.sort_desc sort_desc_perm).
  apply NoDup_ListNoDup. by apply (bool_decide_unpack _).
Defined.

(** ** The foreign keys *)

Section SchemaFacts.
Import Schema.

Lemma mem_In (x : N) (l : list N) : mem x l = true ↔ In x l.
Proof.
  unfold mem. rewrite existsb_exists. split.
  - intros (y & Hy & E). apply N.eqb_eq in E. by subst.
  - intros H. exists x. split; [done | apply N.eqb_refl].
Qed.

Lemma detach_user gone i : item_user (detach gone i) = item_user i.
Proof. unfold detach. destruct (item_device i) as [d |]; [| done]. by destruct (mem d gone). Qed.

Lemma detach_device gone i d :
  item_device (detach gone i) = Some d → item_device i = Some d ∧ ¬ In d gone.
Proof.
  unfold detach. destruct (item_device i) as [d' |] eqn:E; [| by rewrite E].
  destruct (mem d' gone) eqn:Em; simpl; [done |].
  rewrite E. intros [= ->]. split; [done |]. intros H. apply mem_In in H. congruence.
Qed.

(** X22: deleting a user or a device never leaves a dangling reference.
    Both keep referential integrity; after a user is deleted no device
    and no clipboard item of that user is left; after a device is deleted
    its sessions are gone, while every clipboard item is still there,
    none of them naming the device. *)
Theorem X22_deletes_keep_references (db : Database) (u d : N) :
  referential_integrity db →
  referential_integrity (delete_user u db) ∧
  referential_integrity (delete_device d db) ∧
  (¬ In u (users (delete_user u db)) ∧
   (∀ x, In x (devices (delete_user u db)) → dev_user x ≠ u) ∧
   (∀ i, In i (clipboard_items (delete_user u db)) → item_user i ≠ u)) ∧
  (length (clipboard_items (delete_device d db)) = length (clipboard_items db) ∧
   (∀ i, In i (clipboard_items (delete_device d db)) → item_device i ≠ Some d) ∧
   (∀ s, In s (device_sessions (delete_device d db)) → sess_device s ≠ d)).
Proof.
  intros (Hdev & Hitem & Hsess).
  assert (Hkeep_u : ∀ x, In x (List.map dev_id (devices db)) →
            ¬ In x (List.map dev_id (List.filter (fun y => dev_user y =? u) (devices db))) →
            In x (List.map dev_id
                    (List.filter (fun y => negb (dev_user y =? u)) (devices db)))).
  { intros x Hx Hnot. apply in_map_iff in Hx as (y & <- & Hy).
    apply in_map_iff. exists y. split; [done |]. apply filter_In. split; [done |].
    destruct (dev_user y =? u) eqn:E; [| done].
    exfalso. apply Hnot. apply in_map_iff. exists y. split; [done |]. by apply filter_In. }
  assert (Hkeep_d : ∀ x, In x (List.map dev_id (devices db)) → x ≠ d →
            In x (List.map dev_id (List.filter (fun y => negb (dev_id y =? d)) (devices db)))).
  { intros x Hx Hne. apply in_map_iff in Hx as (y & <- & Hy).
    apply in_map_iff. exists y. split; [done |]. apply filter_In. split; [done |].
    apply negb_true_iff. by apply N.eqb_neq. }
  split; [| split; [| split]].
  - split; [| split]; simpl.
    + intros x Hx. apply filter_In in Hx as [Hx Hu]. apply filter_In.
      split; [by apply Hdev |]. done.
    + intros i Hi. apply in_map_iff in Hi as (j & <- & Hj).
      apply filter_In in Hj as [Hj Hu]. destruct (Hitem j Hj) as [H1 H2].
      rewrite detach_user. split; [by apply filter_In |].
      intros x Hx. apply detach_device in Hx as [Hx Hnot]. apply Hkeep_u; [by apply H2 | done].
    + intros s Hs. apply filter_In in Hs as [Hs Hg]. apply Hkeep_u; [by apply Hsess |].
      intros H. apply mem_In in H. by rewrite H in Hg.
  - split; [| split]; simpl.
    + intros x Hx. apply filter_In in Hx as [Hx _]. by apply Hdev.
    + intros i Hi. apply in_map_iff in Hi as (j & <- & Hj).
      destruct (Hitem j Hj) as [H1 H2]. rewrite detach_user. split; [done |].
      intros x Hx. apply detach_device in Hx as [Hx Hnot]. apply Hkeep_d; [by apply H2 |].
      intros ->. apply Hnot. by left.
    + intros s Hs. apply filter_In in Hs as [Hs Hg]. apply Hkeep_d; [by apply Hsess |].
      apply negb_true_iff in Hg. by apply N.eqb_neq.
  - simpl. split; [| split].
    + intros H. apply filter_In in H as [_ H]. by rewrite N.eqb_refl in H.
    + intros x Hx. apply filter_In in Hx as [_ Hx].
      apply negb_true_iff in Hx. by apply N.eqb_neq.
    + intros i Hi. apply in_map_iff in Hi as (j & <- & Hj).
      apply filter_In in Hj as [_ Hj]. rewrite detach_user.
      apply negb_true_iff in Hj. by apply N.eqb_neq.
  - simpl. split; [by rewrite length_map |]. split.
    + intros i Hi Hd. apply in_map_iff in Hi as (j & <- & Hj).
      apply detach_device in Hd as [_ Hnot]. apply Hnot. by left.
    + intros s Hs. apply filter_In in Hs as [_ Hs].
      apply negb_true_iff in Hs. by apply N.eqb_neq.
Qed.

End SchemaFacts.

Lemma X22_deletes_keep_references_witness :
  Schema.referential_integrity (Schema.delete_user 1 Schema.demo_db) ∧
  Schema.referential_integrity (Schema.delete_device 10 Schema.demo_db).
Proof.
  destruct (X22_deletes_keep_references Schema.demo_db 1 10) as (H1 & H2 & _).
  - split; [| split]; simpl.
    + intros x [<- | [<- | [<- | []]]]; simpl; auto.
    + intros i [<- | [<- | [<- | [<- | []]]]]; simpl; (split; [auto |]);
        intros d [= <-]; auto.
    + intros s [<- | [<- | []]]; simpl; auto.
  - split; [exact H1 | exact H2].
Defined.


Lemma X9_clearKey_forgets_key_witness :
  Auth.clearKey MoreInputs.key_storage !! "theme"%string = Some "dark"%string ∧
  (Auth.getKey string AuthFlows.demo_export AuthFlows.demo_import "k1"
     (Auth.clearKey MoreInputs.key_storage)).1 = Some "k1"%string.
Proof.
  destruct (X9_clearKey_forgets_key string AuthFlows.demo_export AuthFlows.demo_import
              "k1"%string MoreInputs.key_storage) as (_ & Hframe & Hget).
  split.
  - rewrite Hframe by discriminate. vm_compute; reflexivity.
  - by rewrite Hget.
Defined.


Lemma X14_hex_digest_text_witness :
  Crypto.hex_of_bytes MoreInputs.three_bytes = Base64.of_ascii "00ff0a" ∧
  length (Crypto.hex_of_bytes MoreInputs.three_bytes) = 6%nat ∧
  (Crypto.hex_of_bytes MoreInputs.three_bytes
   = Crypto.hex_of_bytes [Byte.x00; Byte.xff; Byte.x0a] →
   MoreInputs.three_bytes = [Byte.x00; Byte.xff; Byte.x0a]).
Proof.
  destruct (X14_hex_digest_text MoreInputs.three_bytes) as (Hlen & _ & Hinj).
  split; [vm_compute; reflexivity |]. split; [exact Hlen |]. apply Hinj.
Defined.

Lemma X16_base64_text_shape_witness :
  ∃ text,
    Base64.arrayBufferToBase64 MoreInputs.three_bytes = Some text ∧
    length text = 4%nat ∧
    (In 47 text → In 47 Base64.alphabet ∨ 47 = Base64.pad).
Proof.
  destruct (X16_base64_text_shape MoreInputs.three_bytes) as [(text & Ht & Hl & Hc & _) _].
  exists text. split; [exact Ht |]. split; [exact Hl |]. apply Hc.
Defined.
